(** * Drive link generator: a model of [script.js] and its properties

    The page script is embedded as functions over an explicit page state:
    the DOM properties the script reads and writes, the one global variable
    [statusMessageTimeoutId], local storage, and the browser's timer queue.
    Strings are sequences of UTF-16 code units, as in JavaScript. *)

From Stdlib Require Import List NArith Bool Lia String Ascii Arith PeanoNat.
Import ListNotations.

(* ------------------------------------------------------------------ *)
(** ** JavaScript strings *)

Module JsString.

(** A code unit; a string is a list of them. *)
Definition char := N.
Definition jsstring := list char.

(** A string literal of the source, written as a Rocq string. *)
Definition js (s : string) : jsstring :=
  map N_of_ascii (list_ascii_of_string s).
Arguments js s%_string.

(** [!s] of a string: only the empty string is falsy. *)
Definition falsy (s : jsstring) : bool :=
  match s with
  | [] => true
  | _ :: _ => false
  end.

(** White space and line terminators, the code units [trim] strips. *)
Definition is_white_space (c : char) : bool :=
  (N.eqb c 9 || N.eqb c 10 || N.eqb c 11 || N.eqb c 12 || N.eqb c 13
   || N.eqb c 32 || N.eqb c 160 || N.eqb c 5760
   || (N.leb 8192 c && N.leb c 8202)
   || N.eqb c 8232 || N.eqb c 8233 || N.eqb c 8239 || N.eqb c 8287
   || N.eqb c 12288 || N.eqb c 65279)%bool.

Fixpoint trimStart (s : jsstring) : jsstring :=
  match s with
  | [] => []
  | c :: s' => if is_white_space c then trimStart s' else s
  end.

Fixpoint trimEnd (s : jsstring) : jsstring :=
  match s with
  | [] => []
  | c :: s' =>
      match trimEnd s' with
      | [] => if is_white_space c then [] else [c]
      | t => c :: t
      end
  end.

(** [String.prototype.trim]. *)
Definition trim (s : jsstring) : jsstring := trimEnd (trimStart s).

(** [s.startsWith(p)], returning what follows [p]. *)
Fixpoint strip_prefix (p s : jsstring) : option jsstring :=
  match p with
  | [] => Some s
  | a :: p' =>
      match s with
      | [] => None
      | b :: s' => if N.eqb a b then strip_prefix p' s' else None
      end
  end.

(** [s.includes(p)]. *)
Fixpoint includes (p s : jsstring) : bool :=
  match strip_prefix p s with
  | Some _ => true
  | None =>
      match s with
      | [] => false
      | _ :: s' => includes p s'
      end
  end.

(** [a === b] on strings. *)
Fixpoint str_eqb (a b : jsstring) : bool :=
  match a, b with
  | [], [] => true
  | x :: a', y :: b' => N.eqb x y && str_eqb a' b'
  | _, _ => false
  end.

Fixpoint takeWhile (f : char -> bool) (s : jsstring) : jsstring :=
  match s with
  | [] => []
  | c :: s' => if f c then c :: takeWhile f s' else []
  end.

Fixpoint dropWhile (f : char -> bool) (s : jsstring) : jsstring :=
  match s with
  | [] => []
  | c :: s' => if f c then dropWhile f s' else s
  end.

End JsString.
Import JsString.

(* ------------------------------------------------------------------ *)
(** ** Regular expressions

    The fragment of JavaScript's regular expressions that the script uses,
    with the backtracking semantics of the language: alternatives are tried
    left to right, [?] and [+] are greedy, and a match is searched from the
    leftmost start position on.  Non-capturing groups [(?:...)] are the
    nesting of the syntax tree; [Group] is capturing group 1. *)

Module Regex.

Inductive regex : Type :=
| Str (l : jsstring)              (* a run of literal characters *)
| Seq (r1 r2 : regex)             (* r1 r2 *)
| Alt (r1 r2 : regex)             (* r1|r2 *)
| Opt (r : regex)                 (* r? *)
| PlusCls (p : char -> bool)      (* [class]+ *)
| Group (r : regex).              (* (r), group 1 *)

Section Matcher.
(** The result of a successful match is what the continuation makes of
    the captured group and the rest of the subject. *)
Variable R : Type.

Definition cont := option jsstring -> jsstring -> option R.

Definition orelse (a b : option R) : option R :=
  match a with
  | Some x => Some x
  | None => b
  end.

(** [class+]: one character of the class, then as many as possible,
    giving characters back only when the continuation fails. *)
Fixpoint plus_cls (p : char -> bool) (s : jsstring)
         (k : jsstring -> option R) : option R :=
  match s with
  | [] => None
  | c :: s' =>
      if p c then orelse (plus_cls p s' k) (k s') else None
  end.

Fixpoint rmatch (r : regex) (s : jsstring) (g : option jsstring)
         (k : cont) : option R :=
  match r with
  | Str l =>
      match strip_prefix l s with
      | Some s' => k g s'
      | None => None
      end
  | Seq r1 r2 => rmatch r1 s g (fun g' s' => rmatch r2 s' g' k)
  | Alt r1 r2 => orelse (rmatch r1 s g k) (rmatch r2 s g k)
  | Opt r1 => orelse (rmatch r1 s g k) (k g s)
  | PlusCls p => plus_cls p s (k g)
  | Group r1 =>
      rmatch r1 s g
        (fun _ s' => k (Some (firstn (List.length s - List.length s') s)) s')
  end.
End Matcher.

Arguments orelse {R} a b.
Arguments plus_cls {R} p s k.
Arguments rmatch {R} r s g k.

(** A match at the start of [s]: element 1 of the match array. *)
Definition match_here (r : regex) (s : jsstring) : option (option jsstring) :=
  rmatch r s None (fun g _ => Some g).

(** [s.match(r)] for a regex without the [g] flag: the match at the
    leftmost position that has one, [None] for [null].  Of the match
    array the script reads element 1 only. *)
Fixpoint str_match (r : regex) (s : jsstring) : option (option jsstring) :=
  match match_here r s with
  | Some m => Some m
  | None =>
      match s with
      | [] => None
      | _ :: s' => str_match r s'
      end
  end.

End Regex.
Import Regex.

(* ------------------------------------------------------------------ *)
(** ** Link extraction *)

(** [[a-zA-Z0-9_-]] *)
Definition is_id_char (c : char) : bool :=
  ((N.leb 97 c && N.leb c 122) || (N.leb 65 c && N.leb c 90)
   || (N.leb 48 c && N.leb c 57) || N.eqb c 95 || N.eqb c 45)%bool.

(** The regular expression of [generateLink]:
    [(?:https?:\/\/(?:drive\.google\.com\/(?:file\/d\/|open\?id=)|docs\.google\.com\/document\/d\/))([a-zA-Z0-9_-]+)] *)
Definition drive_regex : regex :=
  Seq
    (Seq (Str (js "http"))
      (Seq (Opt (Str (js "s")))
        (Seq (Str (js "://"))
          (Alt
            (Seq (Str (js "drive.google.com/"))
                 (Alt (Str (js "file/d/")) (Str (js "open?id="))))
            (Str (js "docs.google.com/document/d/"))))))
    (Group (PlusCls is_id_char)).

(** The template literal of [generateLink]. *)
Definition directLink (fileId : jsstring) : jsstring :=
  js "https://drive.google.com/uc?export=download&id=" ++ fileId.

(** [match && match[1]]: the file identifier when the test is truthy. *)
Definition matched_id (m : option (option jsstring)) : option jsstring :=
  match m with
  | Some (Some g) => if falsy g then None else Some g
  | _ => None
  end.

(** What [generateLink] extracts from its trimmed input. *)
Definition extract (input : jsstring) : option jsstring :=
  matched_id (str_match drive_regex input).
Arguments extract input : simpl never.

(* ------------------------------------------------------------------ *)
(** ** The page state *)

(** The three functions the script hands to [setTimeout]: the outer and the
    inner arrow function of [displayStatusMessage], and the rest of
    [generateLink] after its [await], which closes over [input]. *)
Inductive callback : Type :=
| HideStatus
| ClearStatus
| ResumeGenerate (input : jsstring).

Record timer : Type := Timer {
  timer_id : N;
  timer_due : N;
  timer_callback : callback
}.

(** Calls whose effect is outside the page state, and the calls the
    properties below speak about; the state keeps them as a trace. *)
Inductive call : Type :=
| CallStartButtonLoading
| CallStopButtonLoading
| CallMatch (input : jsstring)
| CallFocus
| CallSelect
| CallExecCopy (value : jsstring)
| CallConsoleError
| CallRemoveAllRanges.

Record page : Type := Page {
  driveLinkInput_value : jsstring;  (* driveLinkInput.value *)
  outputLinkInput_value : jsstring;  (* outputLinkInput.value *)
  statusMessage_textContent : jsstring;  (* statusMessage.textContent *)
  statusMessage_dataType : option jsstring;  (* the data-type attribute of statusMessage *)
  statusMessage_show : bool;  (* statusMessage.classList has show *)
  statusMessage_display : jsstring;  (* statusMessage.style.display *)
  copyButton_pointerEvents : jsstring;  (* copyButton.style.pointerEvents *)
  copyButton_opacity : jsstring;  (* copyButton.style.opacity *)
  copyButton_cursor : jsstring;  (* copyButton.style.cursor *)
  generateButton_loading : bool;  (* generateButton.classList has loading *)
  body_darkTheme : bool;  (* document.body.classList has dark-theme *)
  themeToggle_checked : bool;  (* themeToggle.checked *)
  localStorage_theme : option jsstring;  (* localStorage.getItem(theme), None for null *)
  statusMessageTimeoutId : option N;  (* the global of that name, None for undefined *)
  clock : N;  (* milliseconds since the page was loaded *)
  timers : list timer;  (* pending timeouts, in the order they were set *)
  nextTimerId : N;  (* the identifier the next setTimeout returns *)
  calls : list call  (* calls made so far, the latest first *)
}.

(** Field updates: [set_f v s] is [s] with [v] for field [f]. *)

Definition set_driveLinkInput_value (v : jsstring) (s : page) : page :=
  Page v (outputLinkInput_value s) (statusMessage_textContent s)
    (statusMessage_dataType s) (statusMessage_show s)
    (statusMessage_display s) (copyButton_pointerEvents s)
    (copyButton_opacity s) (copyButton_cursor s) (generateButton_loading s)
    (body_darkTheme s) (themeToggle_checked s) (localStorage_theme s)
    (statusMessageTimeoutId s) (clock s) (timers s) (nextTimerId s)
    (calls s).

Definition set_outputLinkInput_value (v : jsstring) (s : page) : page :=
  Page (driveLinkInput_value s) v (statusMessage_textContent s)
    (statusMessage_dataType s) (statusMessage_show s)
    (statusMessage_display s) (copyButton_pointerEvents s)
    (copyButton_opacity s) (copyButton_cursor s) (generateButton_loading s)
    (body_darkTheme s) (themeToggle_checked s) (localStorage_theme s)
    (statusMessageTimeoutId s) (clock s) (timers s) (nextTimerId s)
    (calls s).

Definition set_statusMessage_textContent (v : jsstring) (s : page) : page :=
  Page (driveLinkInput_value s) (outputLinkInput_value s) v
    (statusMessage_dataType s) (statusMessage_show s)
    (statusMessage_display s) (copyButton_pointerEvents s)
    (copyButton_opacity s) (copyButton_cursor s) (generateButton_loading s)
    (body_darkTheme s) (themeToggle_checked s) (localStorage_theme s)
    (statusMessageTimeoutId s) (clock s) (timers s) (nextTimerId s)
    (calls s).

Definition set_statusMessage_dataType (v : option jsstring) (s : page) : page :=
  Page (driveLinkInput_value s) (outputLinkInput_value s)
    (statusMessage_textContent s) v (statusMessage_show s)
    (statusMessage_display s) (copyButton_pointerEvents s)
    (copyButton_opacity s) (copyButton_cursor s) (generateButton_loading s)
    (body_darkTheme s) (themeToggle_checked s) (localStorage_theme s)
    (statusMessageTimeoutId s) (clock s) (timers s) (nextTimerId s)
    (calls s).

Definition set_statusMessage_show (v : bool) (s : page) : page :=
  Page (driveLinkInput_value s) (outputLinkInput_value s)
    (statusMessage_textContent s) (statusMessage_dataType s) v
    (statusMessage_display s) (copyButton_pointerEvents s)
    (copyButton_opacity s) (copyButton_cursor s) (generateButton_loading s)
    (body_darkTheme s) (themeToggle_checked s) (localStorage_theme s)
    (statusMessageTimeoutId s) (clock s) (timers s) (nextTimerId s)
    (calls s).

Definition set_statusMessage_display (v : jsstring) (s : page) : page :=
  Page (driveLinkInput_value s) (outputLinkInput_value s)
    (statusMessage_textContent s) (statusMessage_dataType s)
    (statusMessage_show s) v (copyButton_pointerEvents s)
    (copyButton_opacity s) (copyButton_cursor s) (generateButton_loading s)
    (body_darkTheme s) (themeToggle_checked s) (localStorage_theme s)
    (statusMessageTimeoutId s) (clock s) (timers s) (nextTimerId s)
    (calls s).

Definition set_copyButton_pointerEvents (v : jsstring) (s : page) : page :=
  Page (driveLinkInput_value s) (outputLinkInput_value s)
    (statusMessage_textContent s) (statusMessage_dataType s)
    (statusMessage_show s) (statusMessage_display s) v
    (copyButton_opacity s) (copyButton_cursor s) (generateButton_loading s)
    (body_darkTheme s) (themeToggle_checked s) (localStorage_theme s)
    (statusMessageTimeoutId s) (clock s) (timers s) (nextTimerId s)
    (calls s).

Definition set_copyButton_opacity (v : jsstring) (s : page) : page :=
  Page (driveLinkInput_value s) (outputLinkInput_value s)
    (statusMessage_textContent s) (statusMessage_dataType s)
    (statusMessage_show s) (statusMessage_display s)
    (copyButton_pointerEvents s) v (copyButton_cursor s)
    (generateButton_loading s) (body_darkTheme s) (themeToggle_checked s)
    (localStorage_theme s) (statusMessageTimeoutId s) (clock s) (timers s)
    (nextTimerId s) (calls s).

Definition set_copyButton_cursor (v : jsstring) (s : page) : page :=
  Page (driveLinkInput_value s) (outputLinkInput_value s)
    (statusMessage_textContent s) (statusMessage_dataType s)
    (statusMessage_show s) (statusMessage_display s)
    (copyButton_pointerEvents s) (copyButton_opacity s) v
    (generateButton_loading s) (body_darkTheme s) (themeToggle_checked s)
    (localStorage_theme s) (statusMessageTimeoutId s) (clock s) (timers s)
    (nextTimerId s) (calls s).

Definition set_generateButton_loading (v : bool) (s : page) : page :=
  Page (driveLinkInput_value s) (outputLinkInput_value s)
    (statusMessage_textContent s) (statusMessage_dataType s)
    (statusMessage_show s) (statusMessage_display s)
    (copyButton_pointerEvents s) (copyButton_opacity s)
    (copyButton_cursor s) v (body_darkTheme s) (themeToggle_checked s)
    (localStorage_theme s) (statusMessageTimeoutId s) (clock s) (timers s)
    (nextTimerId s) (calls s).

Definition set_body_darkTheme (v : bool) (s : page) : page :=
  Page (driveLinkInput_value s) (outputLinkInput_value s)
    (statusMessage_textContent s) (statusMessage_dataType s)
    (statusMessage_show s) (statusMessage_display s)
    (copyButton_pointerEvents s) (copyButton_opacity s)
    (copyButton_cursor s) (generateButton_loading s) v
    (themeToggle_checked s) (localStorage_theme s)
    (statusMessageTimeoutId s) (clock s) (timers s) (nextTimerId s)
    (calls s).

Definition set_themeToggle_checked (v : bool) (s : page) : page :=
  Page (driveLinkInput_value s) (outputLinkInput_value s)
    (statusMessage_textContent s) (statusMessage_dataType s)
    (statusMessage_show s) (statusMessage_display s)
    (copyButton_pointerEvents s) (copyButton_opacity s)
    (copyButton_cursor s) (generateButton_loading s) (body_darkTheme s) v
    (localStorage_theme s) (statusMessageTimeoutId s) (clock s) (timers s)
    (nextTimerId s) (calls s).

Definition set_localStorage_theme (v : option jsstring) (s : page) : page :=
  Page (driveLinkInput_value s) (outputLinkInput_value s)
    (statusMessage_textContent s) (statusMessage_dataType s)
    (statusMessage_show s) (statusMessage_display s)
    (copyButton_pointerEvents s) (copyButton_opacity s)
    (copyButton_cursor s) (generateButton_loading s) (body_darkTheme s)
    (themeToggle_checked s) v (statusMessageTimeoutId s) (clock s)
    (timers s) (nextTimerId s) (calls s).

Definition set_statusMessageTimeoutId (v : option N) (s : page) : page :=
  Page (driveLinkInput_value s) (outputLinkInput_value s)
    (statusMessage_textContent s) (statusMessage_dataType s)
    (statusMessage_show s) (statusMessage_display s)
    (copyButton_pointerEvents s) (copyButton_opacity s)
    (copyButton_cursor s) (generateButton_loading s) (body_darkTheme s)
    (themeToggle_checked s) (localStorage_theme s) v (clock s) (timers s)
    (nextTimerId s) (calls s).

Definition set_clock (v : N) (s : page) : page :=
  Page (driveLinkInput_value s) (outputLinkInput_value s)
    (statusMessage_textContent s) (statusMessage_dataType s)
    (statusMessage_show s) (statusMessage_display s)
    (copyButton_pointerEvents s) (copyButton_opacity s)
    (copyButton_cursor s) (generateButton_loading s) (body_darkTheme s)
    (themeToggle_checked s) (localStorage_theme s)
    (statusMessageTimeoutId s) v (timers s) (nextTimerId s) (calls s).

Definition set_timers (v : list timer) (s : page) : page :=
  Page (driveLinkInput_value s) (outputLinkInput_value s)
    (statusMessage_textContent s) (statusMessage_dataType s)
    (statusMessage_show s) (statusMessage_display s)
    (copyButton_pointerEvents s) (copyButton_opacity s)
    (copyButton_cursor s) (generateButton_loading s) (body_darkTheme s)
    (themeToggle_checked s) (localStorage_theme s)
    (statusMessageTimeoutId s) (clock s) v (nextTimerId s) (calls s).

Definition set_nextTimerId (v : N) (s : page) : page :=
  Page (driveLinkInput_value s) (outputLinkInput_value s)
    (statusMessage_textContent s) (statusMessage_dataType s)
    (statusMessage_show s) (statusMessage_display s)
    (copyButton_pointerEvents s) (copyButton_opacity s)
    (copyButton_cursor s) (generateButton_loading s) (body_darkTheme s)
    (themeToggle_checked s) (localStorage_theme s)
    (statusMessageTimeoutId s) (clock s) (timers s) v (calls s).

Definition set_calls (v : list call) (s : page) : page :=
  Page (driveLinkInput_value s) (outputLinkInput_value s)
    (statusMessage_textContent s) (statusMessage_dataType s)
    (statusMessage_show s) (statusMessage_display s)
    (copyButton_pointerEvents s) (copyButton_opacity s)
    (copyButton_cursor s) (generateButton_loading s) (body_darkTheme s)
    (themeToggle_checked s) (localStorage_theme s)
    (statusMessageTimeoutId s) (clock s) (timers s) (nextTimerId s) v.

(* ------------------------------------------------------------------ *)
(** ** Statements of the script as state transformers *)

Module Script.

Definition M (A : Type) : Type := page -> A * page.

Definition ret {A : Type} (a : A) : M A := fun s => (a, s).

Definition bind {A B : Type} (m : M A) (k : A -> M B) : M B :=
  fun s => let (a, s') := m s in k a s'.

Definition gets {A : Type} (f : page -> A) : M A := fun s => (f s, s).

Definition modify (f : page -> page) : M unit := fun s => (tt, f s).

Definition exec {A : Type} (m : M A) (s : page) : page := snd (m s).

Declare Scope script_scope.
Delimit Scope script_scope with script.
Notation "x <- m ;; k" := (bind m (fun x => k))
  (at level 61, m at next level, right associativity) : script_scope.
Notation "m ;; k" := (bind m (fun _ => k))
  (at level 61, right associativity) : script_scope.
Local Open Scope script_scope.

Definition log (c : call) : M unit :=
  modify (fun s => set_calls (c :: calls s) s).

(** *** Timers *)

(** [setTimeout(cb, delay)]: the timeout is due [delay] ms from now. *)
Definition setTimeout (cb : callback) (delay : N) : M N :=
  fun s =>
    let id := nextTimerId s in
    (id, set_nextTimerId (id + 1)
           (set_timers (timers s ++ [Timer id (clock s + delay) cb]) s)).

(** [clearTimeout(id)]: nothing happens when [id] is [undefined] or names
    no pending timeout. *)
Definition clearTimeout (id : option N) : M unit :=
  modify (fun s =>
    set_timers
      (match id with
       | Some i => filter (fun t => negb (N.eqb (timer_id t) i)) (timers s)
       | None => timers s
       end) s).

(** *** Theme *)

Definition applySavedTheme : M unit :=
  savedTheme <- gets localStorage_theme ;;
  match savedTheme with
  | Some v =>
      if str_eqb v (js "dark") then
        modify (set_body_darkTheme true) ;;
        modify (set_themeToggle_checked true)
      else
        modify (set_body_darkTheme false) ;;
        modify (set_themeToggle_checked false)
  | None =>
      modify (set_body_darkTheme false) ;;
      modify (set_themeToggle_checked false)
  end.

(** The listener of the toggle's [change] event. *)
Definition themeToggle_change : M unit :=
  checked <- gets themeToggle_checked ;;
  if checked then
    modify (set_body_darkTheme true) ;;
    modify (set_localStorage_theme (Some (js "dark")))
  else
    modify (set_body_darkTheme false) ;;
    modify (set_localStorage_theme (Some (js "light"))).

(** *** Status message *)

Definition displayStatusMessage (message type : jsstring) : M unit :=
  id <- gets statusMessageTimeoutId ;;
  clearTimeout id ;;
  modify (set_statusMessage_textContent message) ;;
  modify (set_statusMessage_dataType (Some type)) ;;
  modify (set_statusMessage_show true) ;;
  modify (set_statusMessage_display (js "block")) ;;
  id' <- setTimeout HideStatus 5000 ;;
  modify (set_statusMessageTimeoutId (Some id')).

(** *** Copy button *)

Definition toggleCopyButtonState : M unit :=
  isDisabled <- gets (fun s => falsy (outputLinkInput_value s)) ;;
  modify (set_copyButton_pointerEvents
            (if isDisabled then js "none" else js "auto")) ;;
  modify (set_copyButton_opacity (if isDisabled then js "0.5" else js "1")) ;;
  modify (set_copyButton_cursor
            (if isDisabled then js "not-allowed" else js "pointer")).

(** *** Generate button *)

Definition startButtonLoading : M unit :=
  log CallStartButtonLoading ;;
  modify (set_generateButton_loading true).

Definition stopButtonLoading : M unit :=
  log CallStopButtonLoading ;;
  modify (set_generateButton_loading false).

(** *** Link generation *)

(** [generateLink] up to its [await]: the result is the timeout the
    function is suspended on, [None] when it has returned. *)
Definition generateLink_begin : M (option N) :=
  input <- gets (fun s => trim (driveLinkInput_value s)) ;;
  modify (set_outputLinkInput_value []) ;;
  modify (set_statusMessage_show false) ;;
  modify (set_statusMessage_textContent []) ;;
  modify (set_statusMessage_display (js "none")) ;;
  modify (set_statusMessage_dataType None) ;;
  toggleCopyButtonState ;;
  if falsy input then
    displayStatusMessage (js "Please enter a Google Drive link.")
                         (js "error") ;;
    ret None
  else
    startButtonLoading ;;
    id <- setTimeout (ResumeGenerate input) 1200 ;;
    ret (Some id).

(** [generateLink] from its [await] on. *)
Definition generateLink_resume (input : jsstring) : M unit :=
  log (CallMatch input) ;;
  match extract input with
  | Some fileId =>
      modify (set_outputLinkInput_value (directLink fileId)) ;;
      displayStatusMessage
        (js "Direct download link generated successfully!") (js "success") ;;
      log CallFocus ;;
      log CallSelect
  | None =>
      displayStatusMessage
        (js "Invalid Google Drive link format. Please ensure it's a valid file link.")
        (js "error")
  end ;;
  stopButtonLoading ;;
  toggleCopyButtonState.

(** *** Copy to clipboard *)

(** [throws] tells whether [document.execCommand] raises, which is up to
    the browser. *)
Definition copyToClipboard (throws : bool) : M unit :=
  value <- gets outputLinkInput_value ;;
  if falsy value then
    displayStatusMessage (js "No link to copy!") (js "info")
  else
    log CallSelect ;;
    log (CallExecCopy value) ;;
    (if throws then
       log CallConsoleError ;;
       displayStatusMessage (js "Failed to copy link. Please copy manually.")
                            (js "error")
     else
       displayStatusMessage (js "Link copied to clipboard!") (js "success")) ;;
    log CallRemoveAllRanges.

(** *** Page load *)

(** The listener of [DOMContentLoaded]. *)
Definition on_DOMContentLoaded : M unit :=
  toggleCopyButtonState ;;
  applySavedTheme.

(** *** Timer callbacks *)

Definition run_callback (cb : callback) : M unit :=
  match cb with
  | HideStatus =>
      modify (set_statusMessage_show false) ;;
      _ <- setTimeout ClearStatus 400 ;;
      ret tt
  | ClearStatus =>
      modify (set_statusMessage_textContent []) ;;
      modify (set_statusMessage_display (js "none")) ;;
      modify (set_statusMessage_dataType None)
  | ResumeGenerate input => generateLink_resume input
  end.

End Script.
Import Script.

(* ------------------------------------------------------------------ *)
(** ** The event loop *)

Module EventLoop.

(** The pending timeout that is due first and the others; of two that are
    due together the one set first goes first. *)
Fixpoint pop_earliest (q : list timer) : option (timer * list timer) :=
  match q with
  | [] => None
  | t :: q' =>
      match pop_earliest q' with
      | None => Some (t, [])
      | Some (m, r) =>
          if N.leb (timer_due t) (timer_due m) then Some (t, q')
          else Some (m, t :: r)
      end
  end.

(** One turn of the loop: the earliest timeout fires, at the time it is
    due, and its callback runs to completion. *)
Definition fire_next (s : page) : option (N * page) :=
  match pop_earliest (timers s) with
  | None => None
  | Some (t, q) =>
      let s1 := set_clock (N.max (clock s) (timer_due t)) (set_timers q s) in
      Some (timer_id t, exec (run_callback (timer_callback t)) s1)
  end.

(** Time passes until [t] with no user action: every timeout due by then
    fires. *)
Fixpoint run_until (fuel : nat) (t : N) (s : page) : option page :=
  match fuel with
  | O => None
  | S fuel' =>
      match pop_earliest (timers s) with
      | None => Some (set_clock (N.max (clock s) t) s)
      | Some (tm, _) =>
          if N.leb (timer_due tm) t then
            match fire_next s with
            | Some (_, s') => run_until fuel' t s'
            | None => None
            end
          else Some (set_clock (N.max (clock s) t) s)
      end
  end.

(** The loop runs, with no user action, until timeout [id] has fired and
    its callback has returned. *)
Fixpoint await (fuel : nat) (id : N) (s : page) : option page :=
  match fuel with
  | O => None
  | S fuel' =>
      match fire_next s with
      | None => None
      | Some (fired, s') =>
          if N.eqb fired id then Some s' else await fuel' id s'
      end
  end.

(** A whole call of [generateLink], from the click to the end of the
    function body. *)
Definition generateLink (fuel : nat) (s : page) : option page :=
  match generateLink_begin s with
  | (None, s1) => Some s1
  | (Some id, s1) => await fuel id s1
  end.

End EventLoop.
Import EventLoop.

(** The page before its script has run.  The markup is not among the
    sources: its fields are empty and its classes unset, and [saved] is
    what local storage holds for the theme. *)
Definition blank_page (saved : option jsstring) : page :=
  Page [] [] [] None false [] [] [] [] false false false saved None 0 [] 1 [].

Definition loaded_page (saved : option jsstring) : page :=
  exec on_DOMContentLoaded (blank_page saved).

(** The user edits the input field. *)
Definition type_input (v : jsstring) (s : page) : page :=
  set_driveLinkInput_value v s.

(** The user flips the theme switch. *)
Definition flip_theme (checked : bool) (s : page) : page :=
  exec themeToggle_change (set_themeToggle_checked checked s).

(* ------------------------------------------------------------------ *)
(** ** The recognized link shapes, in the words of the specification *)

(** The six literal prefixes: three shapes, each with [http] or [https]. *)
Definition recognized_prefixes : list jsstring :=
  [ js "https://drive.google.com/file/d/";
    js "https://drive.google.com/open?id=";
    js "https://docs.google.com/document/d/";
    js "http://drive.google.com/file/d/";
    js "http://drive.google.com/open?id=";
    js "http://docs.google.com/document/d/" ].

(** Some recognized prefix occurs in the input, literally. *)
Definition contains_recognized_prefix (input : jsstring) : bool :=
  existsb (fun p => includes p input) recognized_prefixes.

(** What follows the recognized prefix that [s] starts with. *)
Fixpoint strip_any (ps : list jsstring) (s : jsstring) : option jsstring :=
  match ps with
  | [] => None
  | p :: ps' =>
      match strip_prefix p s with
      | Some t => Some t
      | None => strip_any ps' s
      end
  end.

(** The identifier of a link that starts at the head of [s]: the longest
    run of identifier characters after a recognized prefix, when that run
    is not empty. *)
Definition link_here (s : jsstring) : option jsstring :=
  match strip_any recognized_prefixes s with
  | Some t =>
      match takeWhile is_id_char t with
      | [] => None
      | id => Some id
      end
  | None => None
  end.

(** [rest] does not go on with an identifier character. *)
Definition ends_run (rest : jsstring) : Prop :=
  match rest with
  | [] => True
  | c :: _ => is_id_char c = false
  end.

(** ASCII lower case, to speak of links written in capitals. *)
Definition to_lower (c : char) : char :=
  if (N.leb 65 c && N.leb c 90)%bool then (c + 32)%N else c.

Definition contains_recognized_prefix_ignoring_case (input : jsstring) : bool :=
  contains_recognized_prefix (map to_lower input).

(* ------------------------------------------------------------------ *)
(** ** Predicates on page states *)

(** The copy button as [toggleCopyButtonState] leaves it for a non-empty
    and for an empty output field. *)
Definition copy_enabled (s : page) : bool :=
  (str_eqb (copyButton_pointerEvents s) (js "auto")
   && str_eqb (copyButton_opacity s) (js "1")
   && str_eqb (copyButton_cursor s) (js "pointer"))%bool.

Definition copy_disabled (s : page) : bool :=
  (str_eqb (copyButton_pointerEvents s) (js "none")
   && str_eqb (copyButton_opacity s) (js "0.5")
   && str_eqb (copyButton_cursor s) (js "not-allowed"))%bool.

(** The copy button is enabled exactly when the output field holds a
    value. *)
Definition copy_synced (s : page) : Prop :=
  copy_enabled s = negb (falsy (outputLinkInput_value s)) /\
  copy_disabled s = falsy (outputLinkInput_value s).

(** Timer identifiers are handed out in increasing order: those in use are
    below the next one. *)
Definition timers_fresh (s : page) : bool :=
  (forallb (fun t => N.ltb (timer_id t) (nextTimerId s)) (timers s)
   && match statusMessageTimeoutId s with
      | Some i => N.ltb i (nextTimerId s)
      | None => true
      end)%bool.

Definition is_resume (cb : callback) : bool :=
  match cb with
  | ResumeGenerate _ => true
  | _ => false
  end.

(** A call of [generateLink] is suspended on its [await]. *)
Definition generation_pending (s : page) : bool :=
  existsb (fun t => is_resume (timer_callback t)) (timers s).

(** The timeouts that dismiss the status message. *)
Definition is_dismissal (cb : callback) : bool :=
  match cb with
  | HideStatus | ClearStatus => true
  | ResumeGenerate _ => false
  end.

Definition pending_dismissals (s : page) : list timer :=
  filter (fun t => is_dismissal (timer_callback t)) (timers s).

(** The timeouts left by [clearTimeout(statusMessageTimeoutId)]. *)
Definition cleared (s : page) : list timer :=
  match statusMessageTimeoutId s with
  | Some i => filter (fun t => negb (N.eqb (timer_id t) i)) (timers s)
  | None => timers s
  end.

(** A measure of the work the timer queue holds: resuming [generateLink]
    sets one hiding timeout, which sets one clearing timeout. *)
Definition callback_weight (cb : callback) : nat :=
  match cb with
  | ResumeGenerate _ => 3
  | HideStatus => 2
  | ClearStatus => 1
  end.

Definition queue_weight (q : list timer) : nat :=
  list_sum (map (fun t => callback_weight (timer_callback t)) q).

(** The state in which the callback of [t] starts, [q] being the other
    pending timeouts. *)
Definition dequeued (s : page) (t : timer) (q : list timer) : page :=
  set_clock (N.max (clock s) (timer_due t)) (set_timers q s).

(** Timeout [id] is pending and resumes [generateLink] on [input]. *)
Definition awaiting (id : N) (input : jsstring) (s : page) : Prop :=
  (exists t, In t (timers s) /\ timer_id t = id) /\
  (forall t, In t (timers s) -> timer_id t = id ->
             timer_callback t = ResumeGenerate input) /\
  (id < nextTimerId s)%N /\
  statusMessageTimeoutId s <> Some id.

(** What can happen to the page: the user acts, or a timeout fires. *)
Inductive step : page -> page -> Prop :=
| step_type (v : jsstring) (s : page) :
    step s (type_input v s)
| step_generate (s : page) :
    step s (exec generateLink_begin s)
| step_copy (throws : bool) (s : page) :
    step s (exec (copyToClipboard throws) s)
| step_theme (checked : bool) (s : page) :
    step s (flip_theme checked s)
| step_timer (s : page) (id : N) (s' : page) :
    fire_next s = Some (id, s') ->
    step s s'
| step_wait (t : N) (s : page) :
    (forall tm, In tm (timers s) -> (t <= timer_due tm)%N) ->
    step s (set_clock (N.max (clock s) t) s).

Inductive reachable : page -> Prop :=
| reachable_load (saved : option jsstring) :
    reachable (loaded_page saved)
| reachable_step (s s' : page) :
    reachable s -> step s s' -> reachable s'.

(** *** A second click during the delay

    The page is loaded, [first] is typed and the button clicked; while
    that call of [generateLink] is suspended, [second] is typed. *)
Definition page_with_suspended_call (first second : jsstring) : page :=
  type_input second
    (exec generateLink_begin (type_input first (loaded_page None))).

(** *** The status message shown a second time

    A message is shown when the page is loaded; [gap] ms later, with no
    user action in between, a second one is shown; then [rest] ms pass. *)
Definition shown_twice (fuel : nat) (m1 m2 type : jsstring) (gap : N)
  : option page :=
  let s0 := exec (displayStatusMessage m1 type) (loaded_page None) in
  match run_until fuel gap s0 with
  | Some s1 => Some (exec (displayStatusMessage m2 type) s1)
  | None => None
  end.

Definition shown_twice_then (fuel : nat) (m1 m2 type : jsstring) (gap rest : N)
  : option page :=
  match shown_twice fuel m1 m2 type gap with
  | Some s2 => run_until fuel (gap + rest) s2
  | None => None
  end.

(* ------------------------------------------------------------------ *)
(** ** Further predicates on page states *)

Definition is_hide (cb : callback) : bool :=
  match cb with
  | HideStatus => true
  | _ => false
  end.

(** The pending outer timeouts of [displayStatusMessage]. *)
Definition pending_hides (s : page) : list timer :=
  filter (fun t => is_hide (timer_callback t)) (timers s).

(** Pending timeouts have distinct identifiers, and a pending outer
    timeout of [displayStatusMessage] is the one [statusMessageTimeoutId]
    names. *)
Definition hide_tracked (s : page) : Prop :=
  NoDup (map timer_id (timers s)) /\
  forall t, In t (timers s) -> timer_callback t = HideStatus ->
            statusMessageTimeoutId s = Some (timer_id t).

(** The dark class, the switch and local storage agree. *)
Definition theme_consistent (s : page) : Prop :=
  body_darkTheme s = themeToggle_checked s /\
  (body_darkTheme s = true <-> localStorage_theme s = Some (js "dark")).

(** The messages the script shows, each with the type it is shown with. *)
Definition script_messages : list (jsstring * jsstring) :=
  [ (js "Please enter a Google Drive link.", js "error");
    (js "Direct download link generated successfully!", js "success");
    (js "Invalid Google Drive link format. Please ensure it's a valid file link.",
     js "error");
    (js "No link to copy!", js "info");
    (js "Link copied to clipboard!", js "success");
    (js "Failed to copy link. Please copy manually.", js "error") ].

(** The status area is blank, or holds one of the script's messages with
    its type. *)
Definition status_known (s : page) : Prop :=
  (statusMessage_textContent s = [] /\ statusMessage_dataType s = None) \/
  exists m ty,
    In (m, ty) script_messages /\
    statusMessage_textContent s = m /\ statusMessage_dataType s = Some ty.

(* ------------------------------------------------------------------ *)
(** ** Strings: lemmas *)

Section StringLemmas.

Lemma strip_prefix_app_same (p t : jsstring) : strip_prefix p (p ++ t) = Some t.
Proof.
  induction p as [|a p IH]; simpl; [reflexivity|].
  now rewrite N.eqb_refl.
Qed.

Lemma strip_prefix_Some (p s t : jsstring) :
  strip_prefix p s = Some t <-> s = p ++ t.
Proof.
  split.
  - revert s. induction p as [|a p IH]; simpl; intros s H.
    + now inversion H.
    + destruct s as [|b s]; [discriminate|].
      destruct (N.eqb_spec a b) as [->|]; [|discriminate].
      f_equal. now apply IH.
  - intros ->. apply strip_prefix_app_same.
Qed.

Lemma takeWhile_dropWhile (f : char -> bool) (s : jsstring) :
  takeWhile f s ++ dropWhile f s = s.
Proof.
  induction s as [|c s IH]; simpl; [reflexivity|].
  destruct (f c); simpl; [now rewrite IH | reflexivity].
Qed.

Lemma takeWhile_all (f : char -> bool) (s : jsstring) :
  forallb f (takeWhile f s) = true.
Proof.
  induction s as [|c s IH]; simpl; [reflexivity|].
  destruct (f c) eqn:E; simpl; [now rewrite E | reflexivity].
Qed.

Lemma dropWhile_head (f : char -> bool) (s : jsstring) :
  match dropWhile f s with
  | [] => True
  | c :: _ => f c = false
  end.
Proof.
  induction s as [|c s IH]; simpl; [exact I|].
  destruct (f c) eqn:E; [exact IH | exact E].
Qed.

(** The longest run of [f] characters at the head of [id ++ rest] is [id]
    when [id] is such a run and [rest] does not continue it. *)
Lemma takeWhile_run (f : char -> bool) (id rest : jsstring) :
  forallb f id = true ->
  match rest with [] => True | c :: _ => f c = false end ->
  takeWhile f (id ++ rest) = id.
Proof.
  intros Hid Hrest. induction id as [|c id IH].
  - destruct rest as [|c rest]; [reflexivity|]. simpl. now rewrite Hrest.
  - simpl in Hid. apply andb_true_iff in Hid as [Hc Hid].
    simpl. rewrite Hc. f_equal. now apply IH.
Qed.

Lemma firstn_consumed (a b : jsstring) :
  firstn (List.length (a ++ b) - List.length b) (a ++ b) = a.
Proof.
  rewrite length_app.
  replace (List.length a + List.length b - List.length b)
    with (List.length a + 0) by lia.
  rewrite firstn_app_2. simpl. apply app_nil_r.
Qed.

Lemma str_eqb_eq (a b : jsstring) : str_eqb a b = true <-> a = b.
Proof.
  revert b. induction a as [|x a IH]; intros [|y b]; simpl;
    try (split; [discriminate | discriminate]); [tauto|].
  rewrite andb_true_iff, N.eqb_eq, IH. split.
  - now intros [-> ->].
  - intros H. now inversion H.
Qed.

Lemma includes_app (p pre post : jsstring) :
  includes p (pre ++ p ++ post) = true.
Proof.
  induction pre as [|c pre IH].
  - simpl app. destruct (p ++ post) eqn:E; simpl;
      rewrite <- E, strip_prefix_app_same; reflexivity.
  - simpl app. simpl. destruct (strip_prefix p (c :: pre ++ p ++ post));
      [reflexivity | exact IH].
Qed.

End StringLemmas.

(* ------------------------------------------------------------------ *)
(** ** The regular expression and the shapes it recognizes *)

Section RegexLemmas.

(** With a continuation that accepts whatever is left, [class+] takes the
    longest run and never has to give a character back. *)
Lemma plus_cls_greedy (R : Type) (p : char -> bool) (k : jsstring -> option R)
      (s : jsstring) :
  (forall x, k x <> None) ->
  plus_cls p s k =
  match takeWhile p s with
  | [] => None
  | _ :: _ => k (dropWhile p s)
  end.
Proof.
  intros Hk. induction s as [|c s IH]; simpl; [reflexivity|].
  destruct (p c); [|reflexivity].
  rewrite IH. destruct s as [|d s]; simpl.
  - reflexivity.
  - destruct (p d); simpl; [|reflexivity].
    destruct (k (dropWhile p s)) eqn:E; [reflexivity|].
    now apply Hk in E.
Qed.

Lemma group_of_run (s : jsstring) :
  firstn (List.length s - List.length (dropWhile is_id_char s)) s
  = takeWhile is_id_char s.
Proof.
  rewrite <- (takeWhile_dropWhile is_id_char s) at 1 3.
  apply firstn_consumed.
Qed.

(** What the identifier group makes of the subject after a prefix. *)
Lemma rmatch_id_group (t : jsstring) (g : option jsstring) :
  rmatch (Group (PlusCls is_id_char)) t g (fun g' _ => Some g') =
  match takeWhile is_id_char t with
  | [] => None
  | id => Some (Some id)
  end.
Proof.
  simpl. rewrite plus_cls_greedy by discriminate.
  rewrite group_of_run. now destruct (takeWhile is_id_char t).
Qed.

Lemma orelse_None_r (R : Type) (a : option R) : orelse a None = a.
Proof. now destruct a. Qed.

Lemma strip_any_Some (ps : list jsstring) (s t : jsstring) :
  strip_any ps s = Some t -> exists p, In p ps /\ s = p ++ t.
Proof.
  induction ps as [|p ps IH]; simpl; [discriminate|].
  destruct (strip_prefix p s) as [t'|] eqn:E.
  - intros [= ->]. apply strip_prefix_Some in E. eauto.
  - intros H. destruct (IH H) as (q & Hq & ->). eauto.
Qed.

Lemma strip_any_None (ps : list jsstring) (s : jsstring) :
  strip_any ps s = None -> forall p, In p ps -> strip_prefix p s = None.
Proof.
  induction ps as [|q ps IH]; simpl; [contradiction|].
  destruct (strip_prefix q s) eqn:E; [discriminate|].
  intros H p [<-|Hp]; [exact E | now apply IH].
Qed.

(** One literal of the regular expression is tried on the subject: either
    the subject starts with it, or that branch of the match is dead. *)
Ltac split_prefix :=
  match goal with
  | |- context [strip_prefix ?p ?s] =>
      let E := fresh "E" in
      destruct (strip_prefix p s) eqn:E;
      [ first [ solve [cbv in E; discriminate]
              | apply strip_prefix_Some in E; subst s ]
      | cbn [orelse] ]
  end.

Ltac dead_prefix :=
  match goal with
  | H : strip_prefix _ _ = None |- _ => solve [cbv in H; discriminate]
  end.

(** A subject that starts with a recognized prefix is matched there, and
    group 1 is the run of identifier characters that follows. *)
Lemma match_here_prefix (p t : jsstring) :
  In p recognized_prefixes ->
  match_here drive_regex (p ++ t) =
  match takeWhile is_id_char t with
  | [] => None
  | id => Some (Some id)
  end.
Proof.
  intros Hp. rewrite <- (rmatch_id_group t None).
  unfold recognized_prefixes in Hp. simpl In in Hp.
  destruct Hp as [<-|[<-|[<-|[<-|[<-|[<-|[]]]]]]];
    unfold match_here, drive_regex; cbn; rewrite ?orelse_None_r; reflexivity.
Qed.

(** A subject that starts with no recognized prefix is not matched at its
    head. *)
Lemma match_here_no_prefix (s : jsstring) :
  strip_any recognized_prefixes s = None ->
  match_here drive_regex s = None.
Proof.
  intros H. pose proof (strip_any_None _ _ H) as Hn. clear H.
  unfold recognized_prefixes in Hn. simpl In in Hn.
  pose proof (Hn _ (or_introl eq_refl)) as H1.
  pose proof (Hn _ (or_intror (or_introl eq_refl))) as H2.
  pose proof (Hn _ (or_intror (or_intror (or_introl eq_refl)))) as H3.
  pose proof (Hn _ (or_intror (or_intror (or_intror (or_introl eq_refl))))) as H4.
  pose proof (Hn _ (or_intror (or_intror (or_intror (or_intror (or_introl eq_refl)))))) as H5.
  pose proof (Hn _ (or_intror (or_intror (or_intror (or_intror (or_intror (or_introl eq_refl))))))) as H6.
  clear Hn.
  unfold match_here, drive_regex; cbn [rmatch].
  repeat split_prefix; try reflexivity; try dead_prefix.
Qed.

(** At a given position the regular expression matches exactly the links
    of the specification, and captures the identifier. *)
Lemma match_here_drive (s : jsstring) :
  match_here drive_regex s = option_map Some (link_here s).
Proof.
  unfold link_here.
  destruct (strip_any recognized_prefixes s) as [t|] eqn:E.
  - apply strip_any_Some in E as (p & Hp & ->).
    rewrite match_here_prefix by assumption.
    now destruct (takeWhile is_id_char t).
  - now apply match_here_no_prefix.
Qed.

Lemma link_here_nonempty (s id : jsstring) : link_here s = Some id -> id <> [].
Proof.
  unfold link_here. destruct (strip_any recognized_prefixes s); [|discriminate].
  destruct (takeWhile is_id_char j); [discriminate|].
  intros [= <-]. discriminate.
Qed.

(** The search of [match], one position at a time. *)
Lemma extract_unfold (s : jsstring) :
  extract s =
  match link_here s with
  | Some id => Some id
  | None =>
      match s with
      | [] => None
      | _ :: s' => extract s'
      end
  end.
Proof.
  unfold extract.
  replace (str_match drive_regex s) with
    (match match_here drive_regex s with
     | Some m => Some m
     | None => match s with [] => None | _ :: s' => str_match drive_regex s' end
     end) by (destruct s; reflexivity).
  rewrite match_here_drive.
  destruct (link_here s) as [id|] eqn:E; simpl.
  - apply link_here_nonempty in E. destruct id; [contradiction | reflexivity].
  - destruct s; reflexivity.
Qed.

Lemma link_here_prefix (p t : jsstring) :
  In p recognized_prefixes ->
  link_here (p ++ t) =
  match takeWhile is_id_char t with
  | [] => None
  | id => Some id
  end.
Proof.
  intros Hp. pose proof (match_here_prefix p t Hp) as H.
  rewrite match_here_drive in H.
  destruct (link_here (p ++ t)), (takeWhile is_id_char t);
    simpl in H; congruence.
Qed.

(** [link_here] in the words of the specification: a recognized prefix,
    then a run of identifier characters that is not empty and cannot be
    extended. *)
Lemma link_here_Some (s id : jsstring) :
  link_here s = Some id <->
  exists p rest,
    In p recognized_prefixes /\ s = p ++ id ++ rest /\ id <> [] /\
    forallb is_id_char id = true /\ ends_run rest.
Proof.
  split.
  - intros H. pose proof (link_here_nonempty _ _ H) as Hne.
    unfold link_here in H.
    destruct (strip_any recognized_prefixes s) as [t|] eqn:E; [|discriminate].
    apply strip_any_Some in E as (p & Hp & ->).
    assert (takeWhile is_id_char t = id) as <-
        by (destruct (takeWhile is_id_char t); congruence).
    exists p, (dropWhile is_id_char t). repeat split; trivial.
    + now rewrite takeWhile_dropWhile.
    + apply takeWhile_all.
    + apply dropWhile_head.
  - intros (p & rest & Hp & -> & Hne & Hid & Hrest).
    rewrite link_here_prefix by assumption.
    rewrite takeWhile_run by assumption.
    destruct id; [contradiction | reflexivity].
Qed.

End RegexLemmas.

(* ------------------------------------------------------------------ *)
(** ** Extraction *)

Section ExtractLemmas.

Lemma contains_recognized_prefix_false (s : jsstring) :
  contains_recognized_prefix s = false <->
  forall p, In p recognized_prefixes -> includes p s = false.
Proof.
  unfold contains_recognized_prefix. split.
  - intros H p Hp. destruct (includes p s) eqn:E; [|reflexivity].
    rewrite <- H. symmetry. apply existsb_exists. eauto.
  - intros H. destruct (existsb _ _) eqn:E; [|reflexivity].
    apply existsb_exists in E as (p & Hp & Hi). now rewrite (H p Hp) in Hi.
Qed.

Lemma includes_tail (p s : jsstring) (c : char) :
  includes p (c :: s) = false -> includes p s = false.
Proof. simpl. now destruct (strip_prefix p (c :: s)). Qed.

(** No recognized prefix anywhere, no match. *)
Lemma extract_no_prefix (s : jsstring) :
  contains_recognized_prefix s = false -> extract s = None.
Proof.
  rewrite contains_recognized_prefix_false.
  induction s as [|c s IH]; intros H; rewrite extract_unfold.
  - reflexivity.
  - destruct (link_here (c :: s)) as [id|] eqn:E.
    + apply link_here_Some in E as (p & rest & Hp & E & _).
      apply H in Hp as Hi. rewrite E in Hi.
      pose proof (includes_app p [] (id ++ rest)) as Hi'. simpl app in Hi'.
      congruence.
    + apply IH. intros p Hp. apply includes_tail with c. now apply H.
Qed.

(** The match is the leftmost link: the identifier of the first position
    where a recognized prefix is followed by an identifier character. *)
Lemma extract_leftmost (pre p id rest : jsstring) :
  In p recognized_prefixes ->
  id <> [] ->
  forallb is_id_char id = true ->
  ends_run rest ->
  (forall pre' p' c rest',
      pre ++ p ++ id ++ rest = pre' ++ p' ++ c :: rest' ->
      In p' recognized_prefixes -> is_id_char c = true ->
      List.length pre <= List.length pre') ->
  extract (pre ++ p ++ id ++ rest) = Some id.
Proof.
  intros Hp Hne Hid Hrest. induction pre as [|c pre IH]; intros Hleft.
  - rewrite extract_unfold.
    replace (link_here ([] ++ p ++ id ++ rest)) with (Some id); [reflexivity|].
    symmetry. apply link_here_Some. exists p, rest. auto.
  - rewrite extract_unfold.
    destruct (link_here ((c :: pre) ++ p ++ id ++ rest)) as [id'|] eqn:E.
    + exfalso. apply link_here_Some in E as (p' & rest' & Hp' & E & Hne' & Hid' & _).
      destruct id' as [|d id']; [contradiction|].
      simpl in Hid'. apply andb_true_iff in Hid' as [Hd _].
      specialize (Hleft [] p' d (id' ++ rest') E Hp' Hd). simpl in Hleft. lia.
    + simpl app. apply IH. intros pre' p' d rest' E' Hp' Hd.
      specialize (Hleft (c :: pre') p' d rest').
      simpl in Hleft. rewrite E' in Hleft.
      specialize (Hleft eq_refl Hp' Hd). lia.
Qed.

Lemma white_space_not_id (c : char) :
  is_white_space c = true -> is_id_char c = false.
Proof.
  unfold is_white_space, is_id_char. intros H.
  repeat (apply orb_true_iff in H as [H|H]);
    try apply andb_true_iff in H as [H1 H2];
    repeat match goal with
           | H : N.eqb _ _ = true |- _ => apply N.eqb_eq in H
           | H : N.leb _ _ = true |- _ => apply N.leb_le in H
           end;
    repeat (apply orb_false_iff; split);
    try (apply andb_false_iff;
         first [ left; apply N.leb_gt; lia | right; apply N.leb_gt; lia ]);
    try (apply N.eqb_neq; lia).
Qed.

Lemma prefix_head (p : jsstring) :
  In p recognized_prefixes -> exists p', p = 104%N :: p'.
Proof.
  intros [<-|[<-|[<-|[<-|[<-|[<-|[]]]]]]]; eexists; reflexivity.
Qed.

Lemma prefix_no_white_space (p : jsstring) :
  In p recognized_prefixes ->
  forallb (fun c => negb (is_white_space c)) p = true.
Proof.
  intros [<-|[<-|[<-|[<-|[<-|[<-|[]]]]]]]; reflexivity.
Qed.

Lemma link_here_white_space (c : char) (s : jsstring) :
  is_white_space c = true -> link_here (c :: s) = None.
Proof.
  intros Hc. destruct (link_here (c :: s)) as [id|] eqn:E; [|reflexivity].
  apply link_here_Some in E as (p & rest & Hp & E & _).
  destruct (prefix_head p Hp) as (p' & ->). injection E as -> _.
  discriminate.
Qed.

Lemma extract_white_space_cons (c : char) (s : jsstring) :
  is_white_space c = true -> extract (c :: s) = extract s.
Proof.
  intros Hc. rewrite extract_unfold. now rewrite link_here_white_space.
Qed.

Lemma extract_trimStart (s : jsstring) : extract (trimStart s) = extract s.
Proof.
  induction s as [|c s IH]; simpl; [reflexivity|].
  destruct (is_white_space c) eqn:E; [|reflexivity].
  now rewrite extract_white_space_cons.
Qed.

Lemma extract_white_space (w : jsstring) :
  forallb is_white_space w = true -> extract w = None.
Proof.
  induction w as [|c w IH]; simpl; [reflexivity|].
  intros H. apply andb_true_iff in H as [Hc Hw].
  rewrite extract_white_space_cons by assumption. auto.
Qed.

(** A run without white space at the head of [s ++ w], where [w] is all
    white space, lies within [s]. *)
Lemma run_within (a b s w : jsstring) :
  a ++ b = s ++ w ->
  forallb (fun c => negb (is_white_space c)) a = true ->
  forallb is_white_space w = true ->
  exists r, s = a ++ r /\ b = r ++ w.
Proof.
  revert s. induction a as [|x a IH]; intros s E Ha Hw.
  - exists s. auto.
  - simpl in Ha. apply andb_true_iff in Ha as [Hx Ha].
    destruct s as [|y s].
    + exfalso. simpl in E. subst w. simpl in Hw.
      apply andb_true_iff in Hw as [Hw _]. rewrite Hw in Hx. discriminate.
    + simpl in E. injection E as -> E.
      destruct (IH s E Ha Hw) as (r & -> & ->). exists r. auto.
Qed.

Lemma ends_run_app_white_space (rest w : jsstring) :
  forallb is_white_space w = true ->
  ends_run rest <-> ends_run (rest ++ w).
Proof.
  intros Hw. destruct rest as [|c rest]; simpl; [|tauto].
  destruct w as [|d w]; simpl; [tauto|].
  simpl in Hw. apply andb_true_iff in Hw as [Hd _].
  split; [intros _; now apply white_space_not_id | trivial].
Qed.

Lemma id_no_white_space (id : jsstring) :
  forallb is_id_char id = true ->
  forallb (fun c => negb (is_white_space c)) id = true.
Proof.
  induction id as [|c id IH]; simpl; [reflexivity|].
  intros H. apply andb_true_iff in H as [Hc Hid].
  rewrite IH by assumption. rewrite andb_true_r.
  destruct (is_white_space c) eqn:E; [|reflexivity].
  apply white_space_not_id in E. congruence.
Qed.

Lemma link_here_app_white_space (s w : jsstring) :
  forallb is_white_space w = true ->
  link_here (s ++ w) = link_here s.
Proof.
  intros Hw.
  destruct (link_here s) as [id|] eqn:E.
  - apply link_here_Some in E as (p & rest & Hp & -> & Hne & Hid & Hrest).
    apply link_here_Some. exists p, (rest ++ w).
    rewrite <- !app_assoc. repeat split; trivial.
    now apply ends_run_app_white_space.
  - destruct (link_here (s ++ w)) as [id|] eqn:E'; [|reflexivity].
    apply link_here_Some in E' as (p & rest & Hp & E' & Hne & Hid & Hrest).
    rewrite (app_assoc p id rest) in E'. symmetry in E'.
    apply run_within in E' as (r & -> & ->); trivial.
    + assert (link_here ((p ++ id) ++ r) = Some id) as E''.
      { apply link_here_Some. exists p, r. rewrite <- app_assoc.
        repeat split; trivial. now apply (ends_run_app_white_space r w). }
      congruence.
    + rewrite forallb_app, prefix_no_white_space, id_no_white_space; trivial.
Qed.

Lemma extract_app_white_space (s w : jsstring) :
  forallb is_white_space w = true -> extract (s ++ w) = extract s.
Proof.
  intros Hw. induction s as [|c s IH].
  - simpl. now rewrite extract_white_space.
  - rewrite (extract_unfold (c :: s)), extract_unfold.
    rewrite link_here_app_white_space by assumption.
    change ((c :: s) ++ w) with (c :: (s ++ w)). cbv iota. now rewrite IH.
Qed.

(** [trimEnd] takes off a run of white space, and nothing else. *)
Lemma trimEnd_spec (s : jsstring) :
  exists w, s = trimEnd s ++ w /\ forallb is_white_space w = true.
Proof.
  induction s as [|c s (w & E & Hw)]; simpl.
  - exists []. auto.
  - destruct (trimEnd s) as [|d t].
    + simpl in E. subst s. destruct (is_white_space c) eqn:Hc.
      * exists (c :: w). simpl. now rewrite Hc.
      * exists w. auto.
    + exists w. split; [|assumption]. simpl. now rewrite E at 1.
Qed.

Lemma extract_trimEnd (s : jsstring) : extract (trimEnd s) = extract s.
Proof.
  destruct (trimEnd_spec s) as (w & E & Hw).
  rewrite E at 2. now rewrite extract_app_white_space.
Qed.

(** Trimming the input does not change what is extracted from it. *)
Lemma extract_trim (s : jsstring) : extract (trim s) = extract s.
Proof. unfold trim. now rewrite extract_trimEnd, extract_trimStart. Qed.

Lemma trim_extract_nonempty (s id : jsstring) :
  extract s = Some id -> falsy (trim s) = false.
Proof.
  rewrite <- extract_trim. destruct (trim s); [discriminate | reflexivity].
Qed.

End ExtractLemmas.

(* ------------------------------------------------------------------ *)
(** ** The script: what each function does to the page *)

Section ScriptLemmas.

Lemma displayStatusMessage_timers (m ty : jsstring) (s : page) :
  timers (exec (displayStatusMessage m ty) s) =
  cleared s ++ [Timer (nextTimerId s) (clock s + 5000) HideStatus].
Proof. reflexivity. Qed.

Lemma generateLink_resume_timers (input : jsstring) (s : page) :
  timers (exec (generateLink_resume input) s) =
  cleared s ++ [Timer (nextTimerId s) (clock s + 5000) HideStatus].
Proof.
  unfold generateLink_resume, exec. cbv [bind log modify].
  destruct (extract input); reflexivity.
Qed.

Lemma generateLink_resume_ids (input : jsstring) (s : page) :
  nextTimerId (exec (generateLink_resume input) s) = (nextTimerId s + 1)%N /\
  statusMessageTimeoutId (exec (generateLink_resume input) s)
  = Some (nextTimerId s).
Proof.
  unfold generateLink_resume, exec. cbv [bind log modify].
  destruct (extract input); split; reflexivity.
Qed.

(** The end of [generateLink] when the input holds a link. *)
Lemma generateLink_resume_match (input id : jsstring) (s : page) :
  extract input = Some id ->
  let s' := exec (generateLink_resume input) s in
  outputLinkInput_value s' = directLink id /\
  statusMessage_textContent s'
  = js "Direct download link generated successfully!" /\
  statusMessage_dataType s' = Some (js "success") /\
  calls s' = CallStopButtonLoading :: CallSelect :: CallFocus
             :: CallMatch input :: calls s.
Proof.
  intros E. unfold generateLink_resume, exec. cbv [bind log modify].
  rewrite E. repeat split; reflexivity.
Qed.

(** The end of [generateLink] when it does not. *)
Lemma generateLink_resume_no_match (input : jsstring) (s : page) :
  extract input = None ->
  let s' := exec (generateLink_resume input) s in
  outputLinkInput_value s' = outputLinkInput_value s /\
  statusMessage_textContent s'
  = js "Invalid Google Drive link format. Please ensure it's a valid file link." /\
  statusMessage_dataType s' = Some (js "error") /\
  calls s' = CallStopButtonLoading :: CallMatch input :: calls s.
Proof.
  intros E. unfold generateLink_resume, exec. cbv [bind log modify].
  rewrite E. repeat split; reflexivity.
Qed.

Lemma generateLink_resume_loading (input : jsstring) (s : page) :
  generateButton_loading (exec (generateLink_resume input) s) = false.
Proof.
  unfold generateLink_resume, exec. cbv [bind log modify].
  destruct (extract input); reflexivity.
Qed.

Lemma toggleCopyButtonState_synced (s : page) :
  copy_synced (exec toggleCopyButtonState s).
Proof.
  unfold copy_synced, copy_enabled, copy_disabled, exec, toggleCopyButtonState.
  cbv [bind gets modify]. cbn.
  destruct (falsy (outputLinkInput_value s)); split; reflexivity.
Qed.

(** [copy_synced] looks at the output field and the copy button only. *)
Lemma copy_synced_frame (s s' : page) :
  outputLinkInput_value s' = outputLinkInput_value s ->
  copyButton_pointerEvents s' = copyButton_pointerEvents s ->
  copyButton_opacity s' = copyButton_opacity s ->
  copyButton_cursor s' = copyButton_cursor s ->
  copy_synced s -> copy_synced s'.
Proof.
  unfold copy_synced, copy_enabled, copy_disabled.
  now intros -> -> -> ->.
Qed.

Lemma generateLink_resume_synced (input : jsstring) (s : page) :
  copy_synced (exec (generateLink_resume input) s).
Proof.
  unfold generateLink_resume, exec. cbv [bind log modify].
  destruct (extract input); apply toggleCopyButtonState_synced.
Qed.

Lemma generateLink_begin_synced (s : page) :
  copy_synced (exec generateLink_begin s).
Proof.
  unfold generateLink_begin, exec. cbv [bind gets modify].
  set (s0 := set_statusMessage_dataType _ _).
  pose proof (toggleCopyButtonState_synced s0) as H. unfold exec in H.
  destruct (toggleCopyButtonState s0) as [u s1]. simpl in H.
  destruct (falsy (trim (driveLinkInput_value s)));
    (eapply copy_synced_frame; [..|exact H]; reflexivity).
Qed.

(** [generateLink] on an input that is empty once trimmed. *)
Lemma generateLink_begin_empty (s : page) :
  falsy (trim (driveLinkInput_value s)) = true ->
  fst (generateLink_begin s) = None /\
  let s' := exec generateLink_begin s in
  outputLinkInput_value s' = [] /\
  statusMessage_textContent s' = js "Please enter a Google Drive link." /\
  statusMessage_dataType s' = Some (js "error") /\
  calls s' = calls s /\
  generateButton_loading s' = generateButton_loading s /\
  timers s' = cleared s ++ [Timer (nextTimerId s) (clock s + 5000) HideStatus].
Proof.
  intros E. unfold generateLink_begin, exec. cbv [bind gets modify].
  rewrite E. repeat split; reflexivity.
Qed.

(** [generateLink] up to its [await] on any other input. *)
Lemma generateLink_begin_nonempty (s : page) :
  falsy (trim (driveLinkInput_value s)) = false ->
  fst (generateLink_begin s) = Some (nextTimerId s) /\
  let s' := exec generateLink_begin s in
  outputLinkInput_value s' = [] /\
  timers s' = timers s ++ [Timer (nextTimerId s) (clock s + 1200)
                             (ResumeGenerate (trim (driveLinkInput_value s)))] /\
  nextTimerId s' = (nextTimerId s + 1)%N /\
  statusMessageTimeoutId s' = statusMessageTimeoutId s /\
  generateButton_loading s' = true.
Proof.
  intros E. unfold generateLink_begin, exec. cbv [bind gets modify].
  rewrite E. repeat split; reflexivity.
Qed.

End ScriptLemmas.

(* ------------------------------------------------------------------ *)
(** ** The event loop: lemmas *)

Section EventLoopLemmas.

Lemma pop_earliest_None (q : list timer) : pop_earliest q = None -> q = [].
Proof.
  destruct q as [|t q]; simpl; [reflexivity|].
  destruct (pop_earliest q) as [[m r]|]; [|discriminate].
  destruct (N.leb _ _); discriminate.
Qed.

(** Popping takes one timeout out of the queue and leaves the others. *)
Lemma pop_earliest_In (q r : list timer) (t : timer) :
  pop_earliest q = Some (t, r) ->
  forall x, In x q <-> x = t \/ In x r.
Proof.
  revert r t. induction q as [|a q IH]; simpl; intros r t H; [discriminate|].
  destruct (pop_earliest q) as [[m r']|] eqn:E.
  - specialize (IH _ _ eq_refl).
    destruct (N.leb _ _); injection H as <- <-; intros x; simpl.
    + intuition.
    + rewrite IH. intuition.
  - apply pop_earliest_None in E. subst q. injection H as <- <-.
    intros x. simpl. intuition.
Qed.

Lemma pop_earliest_weight (q r : list timer) (t : timer) :
  pop_earliest q = Some (t, r) ->
  queue_weight q = callback_weight (timer_callback t) + queue_weight r.
Proof.
  unfold queue_weight.
  revert r t. induction q as [|a q IH]; simpl; intros r t H; [discriminate|].
  destruct (pop_earliest q) as [[m r']|] eqn:E.
  - specialize (IH _ _ eq_refl).
    destruct (N.leb _ _); injection H as <- <-; simpl; lia.
  - apply pop_earliest_None in E. subst q. injection H as <- <-. reflexivity.
Qed.

Lemma queue_weight_app (a b : list timer) :
  queue_weight (a ++ b) = queue_weight a + queue_weight b.
Proof. unfold queue_weight. now rewrite map_app, list_sum_app. Qed.

Lemma queue_weight_filter (f : timer -> bool) (q : list timer) :
  queue_weight (filter f q) <= queue_weight q.
Proof.
  unfold queue_weight. induction q as [|a q IH]; simpl; [lia|].
  destruct (f a); simpl; lia.
Qed.

Lemma queue_weight_length (q : list timer) :
  queue_weight q <= 3 * List.length q.
Proof.
  unfold queue_weight. induction q as [|a q IH]; simpl; [lia|].
  destruct (timer_callback a); simpl; lia.
Qed.

Lemma queue_weight_In (q : list timer) (t : timer) :
  In t q -> callback_weight (timer_callback t) <= queue_weight q.
Proof.
  unfold queue_weight. induction q as [|a q IH]; simpl; [contradiction|].
  intros [->|H]; [lia|]. apply IH in H. lia.
Qed.

Lemma cleared_weight (s : page) :
  queue_weight (cleared s) <= queue_weight (timers s).
Proof.
  unfold cleared. destruct (statusMessageTimeoutId s); [|lia].
  apply queue_weight_filter.
Qed.

Lemma cleared_In (s : page) (x : timer) :
  In x (cleared s) <->
  In x (timers s) /\ statusMessageTimeoutId s <> Some (timer_id x).
Proof.
  unfold cleared. destruct (statusMessageTimeoutId s) as [i|].
  - rewrite filter_In, negb_true_iff, N.eqb_neq. split.
    + intros [H1 H2]. split; [assumption|]. congruence.
    + intros [H1 H2]. split; [assumption|]. congruence.
  - split; [intros H; split; [assumption | discriminate] | tauto].
Qed.

(** The timeouts after a callback has run, by the callback. *)
Lemma run_callback_timers (cb : callback) (s : page) :
  timers (exec (run_callback cb) s) =
  match cb with
  | HideStatus => timers s ++ [Timer (nextTimerId s) (clock s + 400) ClearStatus]
  | ClearStatus => timers s
  | ResumeGenerate _ =>
      cleared s ++ [Timer (nextTimerId s) (clock s + 5000) HideStatus]
  end.
Proof.
  destruct cb; try reflexivity. apply generateLink_resume_timers.
Qed.

Lemma run_callback_nextTimerId (cb : callback) (s : page) :
  (nextTimerId s <= nextTimerId (exec (run_callback cb) s))%N.
Proof.
  destruct cb; simpl.
  - cbn. lia.
  - cbn. lia.
  - destruct (generateLink_resume_ids input s) as [-> _]. lia.
Qed.

Lemma run_callback_timeoutId (cb : callback) (s : page) :
  statusMessageTimeoutId (exec (run_callback cb) s) = statusMessageTimeoutId s \/
  statusMessageTimeoutId (exec (run_callback cb) s) = Some (nextTimerId s).
Proof.
  destruct cb; try (left; reflexivity).
  right. apply generateLink_resume_ids.
Qed.

(** Every callback leaves less work in the queue than it took out. *)
Lemma run_callback_weight (cb : callback) (s : page) :
  queue_weight (timers (exec (run_callback cb) s)) <
  callback_weight cb + queue_weight (timers s).
Proof.
  rewrite run_callback_timers. destruct cb; rewrite ?queue_weight_app; simpl.
  - unfold queue_weight at 2. simpl. lia.
  - lia.
  - pose proof (cleared_weight s). unfold queue_weight at 2. simpl. lia.
Qed.

(** The timeouts a callback leaves were pending, or are new. *)
Lemma run_callback_In (cb : callback) (s : page) (x : timer) :
  In x (timers (exec (run_callback cb) s)) ->
  (In x (timers s) /\ statusMessageTimeoutId s <> Some (timer_id x) \/
   In x (timers s) /\ is_resume cb = false) \/
  (timer_id x = nextTimerId s /\ is_resume (timer_callback x) = false).
Proof.
  rewrite run_callback_timers. destruct cb; rewrite ?in_app_iff; simpl.
  - intros [H|[<-|[]]]; auto.
  - auto.
  - rewrite cleared_In. intros [H|[<-|[]]]; auto.
Qed.

Lemma run_callback_keeps (cb : callback) (s : page) (x : timer) :
  In x (timers s) -> statusMessageTimeoutId s <> Some (timer_id x) ->
  In x (timers (exec (run_callback cb) s)).
Proof.
  intros H1 H2. rewrite run_callback_timers.
  destruct cb; rewrite ?in_app_iff, ?cleared_In; auto.
Qed.

End EventLoopLemmas.

(* ------------------------------------------------------------------ *)
(** ** [generateLink] across its [await] *)

Section Await.

Variable id : N.
Variable input : jsstring.

(** While the loop runs [P] holds, and [Q] holds when [generateLink] is
    resumed. *)
Variables P Q : page -> Prop.

Hypothesis P_step : forall s t q,
    P s -> awaiting id input s ->
    pop_earliest (timers s) = Some (t, q) -> timer_id t <> id ->
    P (exec (run_callback (timer_callback t)) (dequeued s t q)).

Hypothesis P_last : forall s t q,
    P s -> awaiting id input s ->
    pop_earliest (timers s) = Some (t, q) -> timer_id t = id ->
    Q (dequeued s t q).

(** Another timeout firing leaves ours pending. *)
Lemma awaiting_step (s : page) (t : timer) (q : list timer) :
  awaiting id input s ->
  pop_earliest (timers s) = Some (t, q) -> timer_id t <> id ->
  awaiting id input (exec (run_callback (timer_callback t)) (dequeued s t q)).
Proof.
  intros ((t0 & Hin & Hid) & Hcb & Hlt & Hsid) Hpop Hne.
  pose proof (pop_earliest_In _ _ _ Hpop) as HIn.
  set (s1 := dequeued s t q).
  assert (timers s1 = q) as Hq by reflexivity.
  assert (nextTimerId s1 = nextTimerId s) as Hn by reflexivity.
  assert (statusMessageTimeoutId s1 = statusMessageTimeoutId s) as Hs
      by reflexivity.
  repeat split.
  - exists t0. split; [|assumption]. apply run_callback_keeps.
    + rewrite Hq. apply HIn in Hin as [->|Hin]; [contradiction | assumption].
    + rewrite Hs, Hid. assumption.
  - intros x Hx Hxid. apply run_callback_In in Hx.
    rewrite Hq, Hn in Hx.
    assert (In x q -> timer_callback x = ResumeGenerate input) as Hold
        by (intros Hxq; apply Hcb; [apply HIn; now right | assumption]).
    destruct Hx as [[[Hx _]|[Hx _]]|[Hx _]]; auto. lia.
  - pose proof (run_callback_nextTimerId (timer_callback t) s1). lia.
  - destruct (run_callback_timeoutId (timer_callback t) s1) as [->| ->].
    + now rewrite Hs.
    + rewrite Hn. intros [= E]. lia.
Qed.

(** With fuel for the work in the queue, the loop gets to our timeout,
    and [generateLink] runs to its end. *)
Lemma await_finishes (fuel : nat) (s : page) :
  queue_weight (timers s) <= fuel ->
  awaiting id input s -> P s ->
  exists s1, await fuel id s = Some (exec (generateLink_resume input) s1)
             /\ Q s1.
Proof.
  revert s. induction fuel as [|fuel IH]; intros s Hfuel Haw HP.
  - exfalso. destruct Haw as ((t0 & Hin & Hid) & Hcb & _).
    pose proof (queue_weight_In _ _ Hin) as Hw.
    rewrite (Hcb _ Hin Hid) in Hw. simpl in Hw. lia.
  - simpl. unfold fire_next.
    destruct (pop_earliest (timers s)) as [[t q]|] eqn:Hpop.
    + fold (dequeued s t q).
      destruct (N.eqb_spec (timer_id t) id) as [Hid|Hne].
      * exists (dequeued s t q). split; [|now apply (P_last s t q)].
        destruct Haw as (_ & Hcb & _).
        rewrite (Hcb t); trivial.
        apply (pop_earliest_In _ _ _ Hpop). now left.
      * apply IH.
        -- pose proof (run_callback_weight (timer_callback t) (dequeued s t q)) as Hw.
           pose proof (pop_earliest_weight _ _ _ Hpop) as Hq.
           change (timers (dequeued s t q)) with q in Hw. lia.
        -- now apply awaiting_step.
        -- now apply P_step.
    + exfalso. apply pop_earliest_None in Hpop.
      destruct Haw as ((t0 & Hin & _) & _). rewrite Hpop in Hin. contradiction.
Qed.

End Await.

Section WholeCall.

Lemma timers_fresh_spec (s : page) :
  timers_fresh s = true <->
  (forall t, In t (timers s) -> (timer_id t < nextTimerId s)%N) /\
  (forall i, statusMessageTimeoutId s = Some i -> (i < nextTimerId s)%N).
Proof.
  unfold timers_fresh. rewrite andb_true_iff, forallb_forall.
  split; intros [H1 H2]; split.
  - intros t Ht. now apply N.ltb_lt, H1.
  - intros i E. rewrite E in H2. now apply N.ltb_lt.
  - intros t Ht. now apply N.ltb_lt, H1.
  - destruct (statusMessageTimeoutId s); [|reflexivity]. now apply N.ltb_lt, H2.
Qed.

Lemma generation_pending_false (s : page) :
  generation_pending s = false <->
  forall t, In t (timers s) -> is_resume (timer_callback t) = false.
Proof.
  unfold generation_pending. split.
  - intros H t Ht. destruct (is_resume (timer_callback t)) eqn:E; [|reflexivity].
    rewrite <- H. symmetry. apply existsb_exists. eauto.
  - intros H. destruct (existsb _ _) eqn:E; [|reflexivity].
    apply existsb_exists in E as (t & Ht & E). now rewrite (H t Ht) in E.
Qed.

(** After the click our timeout is pending. *)
Lemma generateLink_begin_awaiting (s : page) :
  timers_fresh s = true ->
  falsy (trim (driveLinkInput_value s)) = false ->
  awaiting (nextTimerId s) (trim (driveLinkInput_value s))
           (exec generateLink_begin s).
Proof.
  intros Hf He. apply timers_fresh_spec in Hf as [Hf1 Hf2].
  destruct (generateLink_begin_nonempty s He) as (_ & _ & Ht & Hn & Hs & _).
  unfold awaiting. rewrite Ht, Hn, Hs. repeat split.
  - eexists. split; [apply in_app_iff; right; left; reflexivity | reflexivity].
  - intros t Hin Hid. apply in_app_iff in Hin as [Hin|[<-|[]]]; [|reflexivity].
    apply Hf1 in Hin. lia.
  - lia.
  - intros E. apply Hf2 in E. lia.
Qed.

(** A call of [generateLink] on an input that is not empty once trimmed
    runs to the end of the function body, whatever else is pending. *)
Lemma generateLink_total (fuel : nat) (s : page) :
  timers_fresh s = true ->
  falsy (trim (driveLinkInput_value s)) = false ->
  3 * (List.length (timers s) + 1) <= fuel ->
  exists s1,
    generateLink fuel s
    = Some (exec (generateLink_resume (trim (driveLinkInput_value s))) s1).
Proof.
  intros Hf He Hfuel.
  pose proof (generateLink_begin_awaiting s Hf He) as Haw.
  destruct (generateLink_begin_nonempty s He) as (Hr & _ & Ht & _).
  unfold generateLink, exec in *.
  destruct (generateLink_begin s) as [r s']. simpl in *. subst r.
  destruct (await_finishes (nextTimerId s) (trim (driveLinkInput_value s))
              (fun _ => True) (fun _ => True)) with (fuel := fuel) (s := s')
    as (s1 & E & _); auto.
  - rewrite Ht. pose proof (queue_weight_length (timers s)).
    rewrite queue_weight_app. unfold queue_weight at 2. simpl. lia.
  - eauto.
Qed.

(** When no other call is suspended, the output field is still empty
    when the call is resumed. *)
Lemma generateLink_total_idle (fuel : nat) (s : page) :
  timers_fresh s = true ->
  generation_pending s = false ->
  falsy (trim (driveLinkInput_value s)) = false ->
  3 * (List.length (timers s) + 1) <= fuel ->
  exists s1,
    generateLink fuel s
    = Some (exec (generateLink_resume (trim (driveLinkInput_value s))) s1)
    /\ outputLinkInput_value s1 = [].
Proof.
  intros Hf Hidle He Hfuel.
  pose proof (generateLink_begin_awaiting s Hf He) as Haw.
  destruct (generateLink_begin_nonempty s He) as (Hr & Ho & Ht & _).
  pose proof (proj1 (generation_pending_false s) Hidle) as Hnone.
  clear Hidle.
  unfold generateLink, exec in *.
  destruct (generateLink_begin s) as [r s']. simpl in *. subst r.
  set (P := fun x : page =>
              outputLinkInput_value x = [] /\
              forall t, In t (timers x) -> timer_id t <> nextTimerId s ->
                        is_resume (timer_callback t) = false).
  apply await_finishes with (P := P).
  - intros x t q [Hx1 Hx2] _ Hpop Hne.
    pose proof (pop_earliest_In _ _ _ Hpop) as HIn.
    assert (is_resume (timer_callback t) = false) as Hcb
        by (apply Hx2; [apply HIn; now left | assumption]).
    split.
    + destruct (timer_callback t); [exact Hx1 | exact Hx1 | discriminate].
    + intros y Hy Hyid. apply run_callback_In in Hy.
      change (timers (dequeued x t q)) with q in Hy.
      destruct Hy as [[[Hy _]|[Hy _]]|[_ Hy]]; trivial;
        (apply Hx2; [apply HIn; now right | assumption]).
  - intros x t q [Hx1 _] _ _ _. exact Hx1.
  - rewrite Ht. pose proof (queue_weight_length (timers s)).
    rewrite queue_weight_app. unfold queue_weight at 2. simpl. lia.
  - exact Haw.
  - split; [assumption|]. rewrite Ht. intros t Hin Hne.
    apply in_app_iff in Hin as [Hin|[<-|[]]]; [now apply Hnone|].
    simpl in Hne. contradiction.
Qed.

End WholeCall.

(* ------------------------------------------------------------------ *)
(** ** Invariants of the page *)

Section Invariants.

(** Identifiers stay fresh when the new timeouts take identifiers from
    [nextTimerId] on. *)
Lemma timers_fresh_mono (s s' : page) :
  timers_fresh s = true ->
  (forall t, In t (timers s') ->
             In t (timers s) \/ (timer_id t < nextTimerId s')%N) ->
  (nextTimerId s <= nextTimerId s')%N ->
  (statusMessageTimeoutId s' = statusMessageTimeoutId s \/
   exists i, statusMessageTimeoutId s' = Some i /\ (i < nextTimerId s')%N) ->
  timers_fresh s' = true.
Proof.
  intros H Ht Hn Hs. apply timers_fresh_spec in H as [H1 H2].
  apply timers_fresh_spec. split.
  - intros t Hin. apply Ht in Hin as [Hin|Hlt]; [|assumption].
    apply H1 in Hin. lia.
  - intros i E. destruct Hs as [Hs|(j & Hs & Hj)].
    + rewrite Hs in E. apply H2 in E. lia.
    + congruence.
Qed.

Lemma cleared_incl (s : page) (t : timer) :
  In t (cleared s) -> In t (timers s).
Proof. intros H. now apply cleared_In in H. Qed.

Lemma displayStatusMessage_fresh (m ty : jsstring) (s : page) :
  timers_fresh s = true ->
  timers_fresh (exec (displayStatusMessage m ty) s) = true.
Proof.
  intros H. apply (timers_fresh_mono s); trivial.
  - rewrite displayStatusMessage_timers. intros t Hin.
    apply in_app_iff in Hin as [Hin|[<-|[]]].
    + left. now apply cleared_incl.
    + right. cbn. lia.
  - cbn. lia.
  - right. eexists. split; [reflexivity|]. cbn. lia.
Qed.

Lemma run_callback_fresh (cb : callback) (s : page) :
  timers_fresh s = true ->
  timers_fresh (exec (run_callback cb) s) = true.
Proof.
  intros H. apply (timers_fresh_mono s); trivial.
  - rewrite run_callback_timers. intros t Hin. destruct cb.
    + apply in_app_iff in Hin as [Hin|[<-|[]]]; [now left|]. right. cbn. lia.
    + now left.
    + apply in_app_iff in Hin as [Hin|[<-|[]]].
      * left. now apply cleared_incl.
      * right. destruct (generateLink_resume_ids input s) as [E _].
        unfold run_callback. rewrite E. cbn. lia.
  - apply run_callback_nextTimerId.
  - destruct cb; try (left; reflexivity).
    right. destruct (generateLink_resume_ids input s) as [E1 E2].
    exists (nextTimerId s). unfold run_callback. rewrite E1, E2.
    split; [reflexivity | lia].
Qed.

Lemma generateLink_begin_fresh (s : page) :
  timers_fresh s = true ->
  timers_fresh (exec generateLink_begin s) = true.
Proof.
  intros H. destruct (falsy (trim (driveLinkInput_value s))) eqn:E.
  - unfold generateLink_begin, exec. cbv [bind gets modify]. rewrite E.
    change (timers_fresh (exec (displayStatusMessage [] []) s) = true).
    now apply displayStatusMessage_fresh.
  - destruct (generateLink_begin_nonempty s E) as (_ & _ & Ht & Hn & Hs & _).
    apply (timers_fresh_mono s); trivial.
    + rewrite Ht, Hn. intros t Hin.
      apply in_app_iff in Hin as [Hin|[<-|[]]]; [now left|]. right. cbn. lia.
    + rewrite Hn. lia.
    + now left.
Qed.

Lemma copyToClipboard_fresh (throws : bool) (s : page) :
  timers_fresh s = true ->
  timers_fresh (exec (copyToClipboard throws) s) = true.
Proof.
  intros H. unfold copyToClipboard, exec. cbv [bind gets].
  destruct (falsy (outputLinkInput_value s)); [|destruct throws];
    change (timers_fresh (exec (displayStatusMessage [] []) s) = true);
    now apply displayStatusMessage_fresh.
Qed.

Lemma fire_next_fresh (s s' : page) (id : N) :
  timers_fresh s = true -> fire_next s = Some (id, s') ->
  timers_fresh s' = true.
Proof.
  intros H. unfold fire_next.
  destruct (pop_earliest (timers s)) as [[t q]|] eqn:Hpop; [|discriminate].
  intros [= _ <-]. apply run_callback_fresh.
  apply (timers_fresh_mono s); trivial.
  - intros x Hx. left. apply (pop_earliest_In _ _ _ Hpop). now right.
  - apply N.le_refl.
  - now left.
Qed.

Lemma step_fresh (s s' : page) :
  step s s' -> timers_fresh s = true -> timers_fresh s' = true.
Proof.
  intros Hstep H. destruct Hstep.
  - exact H.
  - now apply generateLink_begin_fresh.
  - now apply copyToClipboard_fresh.
  - destruct checked; exact H.
  - eapply fire_next_fresh; eassumption.
  - exact H.
Qed.

(** Timer identifiers are fresh in every state of the page. *)
Lemma reachable_fresh (s : page) : reachable s -> timers_fresh s = true.
Proof.
  induction 1 as [saved|s s' _ IH Hstep].
  - destruct saved as [v|]; [|reflexivity].
    unfold loaded_page, on_DOMContentLoaded, applySavedTheme, exec.
    cbv [bind gets]. cbn. destruct (str_eqb v _); reflexivity.
  - now apply step_fresh with s.
Qed.

Lemma copyToClipboard_synced (throws : bool) (s : page) :
  copy_synced s -> copy_synced (exec (copyToClipboard throws) s).
Proof.
  apply copy_synced_frame;
    unfold copyToClipboard, exec; cbv [bind gets];
    destruct (falsy (outputLinkInput_value s)); try destruct throws;
    reflexivity.
Qed.

Lemma run_callback_synced (cb : callback) (s : page) :
  copy_synced s -> copy_synced (exec (run_callback cb) s).
Proof.
  destruct cb; [trivial | trivial |]. intros _.
  apply generateLink_resume_synced.
Qed.

Lemma step_synced (s s' : page) :
  step s s' -> copy_synced s -> copy_synced s'.
Proof.
  intros Hstep H. destruct Hstep.
  - exact H.
  - apply generateLink_begin_synced.
  - now apply copyToClipboard_synced.
  - destruct checked; exact H.
  - unfold fire_next in H0.
    destruct (pop_earliest (timers s)) as [[t q]|]; [|discriminate].
    injection H0 as _ <-. now apply run_callback_synced.
  - exact H.
Qed.

(** The copy button is enabled exactly when there is a link to copy, in
    every state of the page. *)
Lemma reachable_synced (s : page) : reachable s -> copy_synced s.
Proof.
  induction 1 as [saved|s s' _ IH Hstep].
  - apply copy_synced_frame with (exec toggleCopyButtonState (blank_page saved));
      try (destruct saved as [v|];
           [unfold loaded_page, on_DOMContentLoaded, applySavedTheme, exec;
            cbv [bind gets]; cbn; destruct (str_eqb v _); reflexivity
           | reflexivity]).
    apply toggleCopyButtonState_synced.
  - now apply step_synced with s.
Qed.

End Invariants.

(* ------------------------------------------------------------------ *)
(** ** Inputs without a link *)

Section NoLink.

(** The match array is [null] exactly when no identifier is extracted:
    group 1 is never empty. *)
Lemma str_match_unfold (r : regex) (s : jsstring) :
  str_match r s =
  match match_here r s with
  | Some m => Some m
  | None =>
      match s with
      | [] => None
      | _ :: s' => str_match r s'
      end
  end.
Proof. destruct s; reflexivity. Qed.

Lemma str_match_drive (s : jsstring) :
  str_match drive_regex s = option_map Some (extract s).
Proof.
  induction s as [|c s IH];
    rewrite extract_unfold, str_match_unfold, match_here_drive.
  - reflexivity.
  - destruct (link_here (c :: s)); [reflexivity | exact IH].
Qed.

Lemma extract_skip (c : char) (s : jsstring) :
  c <> 104%N -> extract (c :: s) = extract s.
Proof.
  intros Hc. rewrite extract_unfold.
  destruct (link_here (c :: s)) as [id|] eqn:E; [|reflexivity].
  apply link_here_Some in E as (p & rest & Hp & E & _).
  destruct (prefix_head p Hp) as (p' & ->). injection E as -> _.
  contradiction.
Qed.

Lemma prefix_not_id (p : jsstring) :
  In p recognized_prefixes -> forallb is_id_char p = false.
Proof.
  intros [<-|[<-|[<-|[<-|[<-|[<-|[]]]]]]]; reflexivity.
Qed.

(** A run of identifier characters holds no link: every recognized
    prefix has a colon. *)
Lemma extract_id_chars (s : jsstring) :
  forallb is_id_char s = true -> extract s = None.
Proof.
  induction s as [|c s IH]; intros H; rewrite extract_unfold.
  - reflexivity.
  - destruct (link_here (c :: s)) as [id|] eqn:E.
    + apply link_here_Some in E as (p & rest & Hp & E & _).
      rewrite E, forallb_app in H. apply andb_true_iff in H as [H _].
      rewrite (prefix_not_id p Hp) in H. discriminate.
    + simpl in H. apply andb_true_iff in H as [_ H]. auto.
Qed.

(** Nothing is extracted from a generated link. *)
Lemma extract_directLink (id : jsstring) :
  forallb is_id_char id = true -> extract (directLink id) = None.
Proof.
  intros H. unfold directLink.
  change (js "https://drive.google.com/uc?export=download&id=")
    with (104%N :: js "ttps://drive.google.com/uc?export=download&id=").
  rewrite <- app_comm_cons, extract_unfold.
  replace (link_here _) with (@None jsstring) by reflexivity.
  cbn [js list_ascii_of_string map app].
  repeat (rewrite extract_skip by (cbn; discriminate)).
  now apply extract_id_chars.
Qed.

Lemma trimEnd_cons_nonspace (c : char) (s : jsstring) :
  is_white_space c = false -> falsy (trimEnd (c :: s)) = false.
Proof.
  intros Hc. simpl. rewrite Hc. now destruct (trimEnd s).
Qed.

Lemma trim_directLink (id : jsstring) : falsy (trim (directLink id)) = false.
Proof.
  unfold trim, directLink.
  change (js "https://drive.google.com/uc?export=download&id=")
    with (104%N :: js "ttps://drive.google.com/uc?export=download&id=").
  rewrite <- app_comm_cons.
  change (trimStart (104%N :: ?x)) with (104%N :: x).
  now apply trimEnd_cons_nonspace.
Qed.

(** A call of [generateLink] on an input that is not empty and holds no
    link: the message is the one for an invalid link, and the output field
    is empty at the end unless another call, suspended at the click, has
    written it. *)
Lemma generateLink_no_match (fuel : nat) (s : page) :
  timers_fresh s = true ->
  falsy (trim (driveLinkInput_value s)) = false ->
  extract (driveLinkInput_value s) = None ->
  3 * (List.length (timers s) + 1) <= fuel ->
  exists s',
    generateLink fuel s = Some s' /\
    statusMessage_textContent s'
    = js "Invalid Google Drive link format. Please ensure it's a valid file link." /\
    statusMessage_dataType s' = Some (js "error") /\
    (generation_pending s = false -> outputLinkInput_value s' = []).
Proof.
  intros Hf Hne Hex Hfuel.
  destruct (generateLink_total fuel s Hf Hne Hfuel) as (s1 & E).
  rewrite <- extract_trim in Hex.
  destruct (generateLink_resume_no_match _ s1 Hex) as (_ & H2 & H3 & _).
  eexists. split; [exact E|]. repeat split; trivial.
  intros Hidle.
  destruct (generateLink_total_idle fuel s Hf Hidle Hne Hfuel) as (s2 & E2 & Ho).
  rewrite E in E2. injection E2 as ->.
  now destruct (generateLink_resume_no_match _ s2 Hex) as (-> & _).
Qed.

End NoLink.

(* ------------------------------------------------------------------ *)
(** ** Link generation: the properties *)

Section Generation.

(** C1.  When the input field holds a link of a recognized shape - a
    recognized prefix [p], then the identifier [id], a run of
    [[A-Za-z0-9_-]] that is not empty and that [rest] does not continue,
    at the leftmost place where the input has such a link - a call of
    [generateLink] runs to its end and leaves in the output field exactly
    [https://drive.google.com/uc?export=download&id=] followed by [id],
    character for character. *)
Theorem generateLink_output_template
        (fuel : nat) (s : page) (pre p id rest : jsstring) :
  driveLinkInput_value s = pre ++ p ++ id ++ rest ->
  In p recognized_prefixes ->
  id <> [] ->
  forallb is_id_char id = true ->
  ends_run rest ->
  (forall pre' p' c rest',
      pre ++ p ++ id ++ rest = pre' ++ p' ++ c :: rest' ->
      In p' recognized_prefixes -> is_id_char c = true ->
      List.length pre <= List.length pre') ->
  timers_fresh s = true ->
  3 * (List.length (timers s) + 1) <= fuel ->
  str_match drive_regex (trim (driveLinkInput_value s)) = Some (Some id) /\
  exists s',
    generateLink fuel s = Some s' /\
    outputLinkInput_value s'
    = js "https://drive.google.com/uc?export=download&id=" ++ id.
Proof.
  intros Hin Hp Hne Hid Hrest Hleft Hf Hfuel.
  assert (extract (trim (driveLinkInput_value s)) = Some id) as Hex.
  { rewrite extract_trim, Hin. now apply extract_leftmost. }
  split.
  - now rewrite str_match_drive, Hex.
  - assert (falsy (trim (driveLinkInput_value s)) = false) as Hnonempty
        by (apply trim_extract_nonempty with id; now rewrite <- extract_trim).
    destruct (generateLink_total fuel s Hf Hnonempty Hfuel) as (s1 & E).
    eexists. split; [exact E|].
    now destruct (generateLink_resume_match _ id s1 Hex) as (-> & _).
Qed.

Lemma generateLink_output_template_witness :
  exists s',
    generateLink 3
      (type_input
         (js "https://drive.google.com/file/d/1A2b_3C-xyz/view?usp=sharing")
         (loaded_page None)) = Some s' /\
    outputLinkInput_value s'
    = js "https://drive.google.com/uc?export=download&id=1A2b_3C-xyz".
Proof.
  apply (generateLink_output_template 3
           (type_input
              (js "https://drive.google.com/file/d/1A2b_3C-xyz/view?usp=sharing")
              (loaded_page None))
           [] (js "https://drive.google.com/file/d/") (js "1A2b_3C-xyz")
           (js "/view?usp=sharing")).
  - reflexivity.
  - left. reflexivity.
  - discriminate.
  - reflexivity.
  - reflexivity.
  - intros pre' p' c rest' _ _ _. apply Nat.le_0_l.
  - reflexivity.
  - simpl. repeat constructor.
Defined.

(** C3, as amended.  When the input, trimmed, is not empty and holds none
    of the recognized prefixes, the match is [null], and a call of
    [generateLink] runs to its end and shows "Invalid Google Drive link
    format. Please ensure it's a valid file link." as an error; the output
    field is empty at the end when no other call was suspended at the
    click. *)
Theorem generateLink_invalid_link (fuel : nat) (s : page) :
  falsy (trim (driveLinkInput_value s)) = false ->
  contains_recognized_prefix (driveLinkInput_value s) = false ->
  timers_fresh s = true ->
  3 * (List.length (timers s) + 1) <= fuel ->
  str_match drive_regex (trim (driveLinkInput_value s)) = None /\
  exists s',
    generateLink fuel s = Some s' /\
    statusMessage_textContent s'
    = js "Invalid Google Drive link format. Please ensure it's a valid file link." /\
    statusMessage_dataType s' = Some (js "error") /\
    (generation_pending s = false -> outputLinkInput_value s' = []).
Proof.
  intros Hne Hno Hf Hfuel.
  pose proof (extract_no_prefix _ Hno) as Hex.
  split.
  - now rewrite str_match_drive, extract_trim, Hex.
  - now apply generateLink_no_match.
Qed.

Lemma generateLink_invalid_link_witness :
  exists s',
    generateLink 3
      (type_input (js "https://example.com/not-a-drive-link")
                  (loaded_page None)) = Some s' /\
    statusMessage_textContent s'
    = js "Invalid Google Drive link format. Please ensure it's a valid file link." /\
    statusMessage_dataType s' = Some (js "error") /\
    (generation_pending (loaded_page None) = false ->
     outputLinkInput_value s' = []).
Proof.
  apply (generateLink_invalid_link 3
           (type_input (js "https://example.com/not-a-drive-link")
                       (loaded_page None))).
  - reflexivity.
  - reflexivity.
  - reflexivity.
  - simpl. repeat constructor.
Defined.

(** C3, as stated, fails on the empty input: it holds no recognized
    prefix, and [generateLink] shows "Please enter a Google Drive link."
    and not the message for an invalid link.  It also fails for an input
    without a link typed while a call on a link is suspended: that call is
    resumed first and writes the output field, which the later call leaves
    as it finds it. *)
Lemma generateLink_invalid_link_counterexample :
  (contains_recognized_prefix [] = false /\
   option_map statusMessage_textContent
     (generateLink 0 (type_input [] (loaded_page None)))
   = Some (js "Please enter a Google Drive link.")) /\
  (contains_recognized_prefix (js "zzz") = false /\
   option_map (fun s => (statusMessage_textContent s, outputLinkInput_value s))
     (generateLink 6
        (page_with_suspended_call
           (js "https://drive.google.com/open?id=XyZ789_-") (js "zzz")))
   = Some (js "Invalid Google Drive link format. Please ensure it's a valid file link.",
           js "https://drive.google.com/uc?export=download&id=XyZ789_-")).
Proof.
  repeat split; vm_compute; reflexivity.
Qed.

(** C4.  When the input is empty once trimmed, a call of [generateLink]
    returns at once: it shows "Please enter a Google Drive link." as an
    error, makes no call at all - neither the match nor
    [startButtonLoading] - leaves the loading class as it was, suspends
    on no timeout, and leaves the output field empty. *)
Theorem generateLink_empty_input (fuel : nat) (s : page) :
  trim (driveLinkInput_value s) = [] ->
  exists s',
    generateLink fuel s = Some s' /\
    statusMessage_textContent s' = js "Please enter a Google Drive link." /\
    statusMessage_dataType s' = Some (js "error") /\
    calls s' = calls s /\
    generateButton_loading s' = generateButton_loading s /\
    (forall t, In t (timers s') -> is_resume (timer_callback t) = true ->
               In t (timers s)) /\
    outputLinkInput_value s' = [].
Proof.
  intros E.
  assert (falsy (trim (driveLinkInput_value s)) = true) as Hfalsy
      by now rewrite E.
  destruct (generateLink_begin_empty s Hfalsy)
    as (Hr & Ho & Htext & Hty & Hcalls & Hload & Ht).
  unfold generateLink, exec in *.
  destruct (generateLink_begin s) as [r s']. simpl in *. subst r.
  exists s'. repeat split; trivial.
  intros t Hin Hres. rewrite Ht in Hin.
  apply in_app_iff in Hin as [Hin|[<-|[]]].
  - now apply cleared_incl.
  - discriminate.
Qed.

Lemma generateLink_empty_input_witness :
  exists s',
    generateLink 0 (type_input (js "   ") (loaded_page None)) = Some s' /\
    statusMessage_textContent s' = js "Please enter a Google Drive link." /\
    statusMessage_dataType s' = Some (js "error") /\
    calls s' = [] /\
    generateButton_loading s' = false /\
    (forall t, In t (timers s') -> is_resume (timer_callback t) = true ->
               False) /\
    outputLinkInput_value s' = [].
Proof.
  apply (generateLink_empty_input 0
           (type_input (js "   ") (loaded_page None))).
  reflexivity.
Defined.

(** C5, as amended.  A call of [generateLink] runs to its end on every
    path.  When the input holds a link and when it holds none, the button
    is not loading at the end.  When the input is empty once trimmed, the
    call returns without touching the loading class: the button is loading
    at the end exactly when it was at the click.  The function has no
    statement that can fail. *)
Theorem generateLink_loading_cleared (fuel : nat) (s : page) :
  timers_fresh s = true ->
  3 * (List.length (timers s) + 1) <= fuel ->
  exists s',
    generateLink fuel s = Some s' /\
    generateButton_loading s'
    = if falsy (trim (driveLinkInput_value s))
      then generateButton_loading s else false.
Proof.
  intros Hf Hfuel.
  destruct (falsy (trim (driveLinkInput_value s))) eqn:E.
  - destruct (generateLink_begin_empty s E) as (Hr & _ & _ & _ & _ & Hl & _).
    unfold generateLink, exec in *.
    destruct (generateLink_begin s) as [r s']. simpl in *. subst r.
    exists s'. split; [reflexivity | assumption].
  - destruct (generateLink_total fuel s Hf E Hfuel) as (s1 & E1).
    eexists. split; [exact E1|]. apply generateLink_resume_loading.
Qed.

Lemma generateLink_loading_cleared_witness :
  exists s',
    generateLink 3
      (type_input (js "https://drive.google.com/open?id=XyZ789_-")
                  (loaded_page None)) = Some s' /\
    generateButton_loading s' = false.
Proof.
  apply (generateLink_loading_cleared 3
           (type_input (js "https://drive.google.com/open?id=XyZ789_-")
                       (loaded_page None))).
  - reflexivity.
  - simpl. repeat constructor.
Defined.

(** C5, as stated, fails on the early return when another call is
    suspended: a link is typed and the button clicked, the input is
    emptied and the button clicked again during the delay; the second call
    returns with the button still loading. *)
Lemma generateLink_loading_cleared_counterexample :
  trim (driveLinkInput_value
          (page_with_suspended_call
             (js "https://drive.google.com/open?id=XyZ789_-") [])) = [] /\
  option_map generateButton_loading
    (generateLink 0
       (page_with_suspended_call
          (js "https://drive.google.com/open?id=XyZ789_-") []))
  = Some true.
Proof.
  split; vm_compute; reflexivity.
Qed.

End Generation.

(* ------------------------------------------------------------------ *)
(** ** Copy button, clipboard and theme: the properties *)

Section Controls.

(** C6.  The copy button follows the output field: after
    [generateLink] has cleared the field, and after it has ended, with a
    link or without one, the button is enabled ([pointer-events: auto],
    opacity 1, cursor [pointer]) exactly when the field is not empty, and
    disabled ([pointer-events: none], opacity 0.5, cursor [not-allowed])
    exactly when it is empty.  The same holds in every state the page
    can reach. *)
Theorem copy_button_follows_output :
  (forall s, copy_synced (exec generateLink_begin s)) /\
  (forall input s, copy_synced (exec (generateLink_resume input) s)) /\
  (forall fuel s,
      timers_fresh s = true ->
      3 * (List.length (timers s) + 1) <= fuel ->
      exists s', generateLink fuel s = Some s' /\ copy_synced s') /\
  (forall s, reachable s -> copy_synced s).
Proof.
  split; [exact generateLink_begin_synced|].
  split; [exact generateLink_resume_synced|].
  split; [|exact reachable_synced].
  intros fuel s Hf Hfuel.
  destruct (falsy (trim (driveLinkInput_value s))) eqn:E.
  - destruct (generateLink_begin_empty s E) as (Hr & _).
    pose proof (generateLink_begin_synced s) as Hs.
    unfold generateLink, exec in *.
    destruct (generateLink_begin s) as [r s']. simpl in *. subst r.
    exists s'. auto.
  - destruct (generateLink_total fuel s Hf E Hfuel) as (s1 & E1).
    eexists. split; [exact E1|]. apply generateLink_resume_synced.
Qed.

Lemma copy_button_follows_output_witness :
  copy_synced (loaded_page None) /\
  exists s',
    generateLink 3
      (type_input (js "https://docs.google.com/document/d/abc/edit")
                  (loaded_page None)) = Some s' /\
    copy_synced s'.
Proof.
  destruct copy_button_follows_output as (_ & _ & Hrun & Hreach).
  split.
  - apply Hreach. constructor.
  - apply Hrun; [reflexivity | simpl; repeat constructor].
Defined.

(** C7.  The theme preference round-trips through local storage.  After
    the switch has been flipped to dark, [applySavedTheme] on a page with
    the storage that flip left gives the dark theme and a checked switch;
    after a flip to light, the light theme and an unchecked switch.  When
    storage holds nothing, or anything other than ["dark"], the theme is
    light and the switch unchecked. *)
Theorem theme_round_trip :
  (forall s d,
      localStorage_theme d = localStorage_theme (flip_theme true s) ->
      body_darkTheme (flip_theme true s) = true /\
      body_darkTheme (exec applySavedTheme d) = true /\
      themeToggle_checked (exec applySavedTheme d) = true) /\
  (forall s d,
      localStorage_theme d = localStorage_theme (flip_theme false s) ->
      body_darkTheme (flip_theme false s) = false /\
      body_darkTheme (exec applySavedTheme d) = false /\
      themeToggle_checked (exec applySavedTheme d) = false) /\
  (forall d,
      localStorage_theme d <> Some (js "dark") ->
      body_darkTheme (exec applySavedTheme d) = false /\
      themeToggle_checked (exec applySavedTheme d) = false).
Proof.
  repeat split;
    unfold applySavedTheme, exec; cbv [bind gets];
    try (rewrite H; reflexivity).
  - destruct (localStorage_theme d) as [v|]; [|reflexivity].
    destruct (str_eqb v (js "dark")) eqn:E; [|reflexivity].
    apply str_eqb_eq in E. congruence.
  - destruct (localStorage_theme d) as [v|]; [|reflexivity].
    destruct (str_eqb v (js "dark")) eqn:E; [|reflexivity].
    apply str_eqb_eq in E. congruence.
Qed.

Lemma theme_round_trip_witness :
  (body_darkTheme (loaded_page (localStorage_theme
                                  (flip_theme true (loaded_page None)))) = true /\
   themeToggle_checked (loaded_page (localStorage_theme
                                  (flip_theme true (loaded_page None)))) = true) /\
  (body_darkTheme (loaded_page (Some (js "Dark"))) = false /\
   themeToggle_checked (loaded_page (Some (js "Dark"))) = false).
Proof.
  destruct theme_round_trip as (Hdark & _ & Hother).
  split.
  - apply (Hdark (loaded_page None)
                 (exec toggleCopyButtonState
                    (blank_page (localStorage_theme
                                   (flip_theme true (loaded_page None)))))).
    reflexivity.
  - apply (Hother (exec toggleCopyButtonState (blank_page (Some (js "Dark"))))).
    discriminate.
Defined.

(** C8.  [copyToClipboard] on an empty output field shows "No link to
    copy!" as an info message, makes no call - it does not select the
    field and does not run the copy command - and leaves the output field
    as it was. *)
Theorem copyToClipboard_empty (throws : bool) (s : page) :
  outputLinkInput_value s = [] ->
  statusMessage_textContent (exec (copyToClipboard throws) s)
  = js "No link to copy!" /\
  statusMessage_dataType (exec (copyToClipboard throws) s)
  = Some (js "info") /\
  calls (exec (copyToClipboard throws) s) = calls s /\
  outputLinkInput_value (exec (copyToClipboard throws) s)
  = outputLinkInput_value s.
Proof.
  intros E. unfold copyToClipboard, exec. cbv [bind gets].
  rewrite E. repeat split; try reflexivity. exact E.
Qed.

Lemma copyToClipboard_empty_witness :
  statusMessage_textContent (exec (copyToClipboard false) (loaded_page None))
  = js "No link to copy!" /\
  statusMessage_dataType (exec (copyToClipboard false) (loaded_page None))
  = Some (js "info") /\
  calls (exec (copyToClipboard false) (loaded_page None)) = [] /\
  outputLinkInput_value (exec (copyToClipboard false) (loaded_page None)) = [].
Proof.
  apply (copyToClipboard_empty false (loaded_page None)). reflexivity.
Defined.

End Controls.

(* ------------------------------------------------------------------ *)
(** ** Extraction: the properties *)

Section Extraction.

(** C9.  The match is case-sensitive: when the input holds a recognized
    prefix only in a spelling that differs from it in the case of some
    letters, and nowhere as it is written, the match is [null], before
    and after trimming. *)
Theorem str_match_case_sensitive (input : jsstring) :
  contains_recognized_prefix_ignoring_case input = true ->
  contains_recognized_prefix input = false ->
  str_match drive_regex input = None /\
  str_match drive_regex (trim input) = None.
Proof.
  intros _ Hno. pose proof (extract_no_prefix _ Hno) as Hex.
  rewrite !str_match_drive, extract_trim, Hex. auto.
Qed.

Lemma str_match_case_sensitive_witness :
  str_match drive_regex (js "HTTPS://DRIVE.GOOGLE.COM/FILE/D/abc123") = None /\
  str_match drive_regex (trim (js "HTTPS://DRIVE.GOOGLE.COM/FILE/D/abc123"))
  = None.
Proof.
  apply (str_match_case_sensitive (js "HTTPS://DRIVE.GOOGLE.COM/FILE/D/abc123"));
    reflexivity.
Defined.

(** C10.  A generated link is not a recognized input: for every
    identifier, the match on
    [https://drive.google.com/uc?export=download&id=<id>] is [null], and
    a call of [generateLink] on it shows the message for an invalid
    link. *)
Theorem directLink_not_recognized (id : jsstring) :
  forallb is_id_char id = true ->
  str_match drive_regex (directLink id) = None /\
  forall fuel s,
    driveLinkInput_value s = directLink id ->
    timers_fresh s = true ->
    3 * (List.length (timers s) + 1) <= fuel ->
    exists s',
      generateLink fuel s = Some s' /\
      statusMessage_textContent s'
      = js "Invalid Google Drive link format. Please ensure it's a valid file link." /\
      statusMessage_dataType s' = Some (js "error") /\
      (generation_pending s = false -> outputLinkInput_value s' = []).
Proof.
  intros Hid. pose proof (extract_directLink id Hid) as Hex. split.
  - now rewrite str_match_drive, Hex.
  - intros fuel s Hin Hf Hfuel.
    apply generateLink_no_match; trivial; rewrite Hin; trivial.
    apply trim_directLink.
Qed.

Lemma directLink_not_recognized_witness :
  str_match drive_regex
    (js "https://drive.google.com/uc?export=download&id=1A2b_3C-xyz") = None.
Proof.
  apply (directLink_not_recognized (js "1A2b_3C-xyz")). reflexivity.
Defined.

End Extraction.

(* ------------------------------------------------------------------ *)
(** ** The status message and its timers *)

Section StatusMessage.

(** While the hiding timeout of a message is pending, showing another
    message cancels it: no timeout with the recorded identifier is left,
    and the new message is the one on display. *)
Lemma displayStatusMessage_cancels_recorded (m ty : jsstring) (s : page) (i : N) :
  timers_fresh s = true ->
  statusMessageTimeoutId s = Some i ->
  (forall t, In t (timers (exec (displayStatusMessage m ty) s)) ->
             timer_id t <> i) /\
  statusMessage_textContent (exec (displayStatusMessage m ty) s) = m.
Proof.
  intros Hf Hi. split; [|reflexivity].
  apply timers_fresh_spec in Hf as [_ Hf]. apply Hf in Hi as Hlt.
  rewrite displayStatusMessage_timers. intros t Hin.
  apply in_app_iff in Hin as [Hin|[<-|[]]].
  - apply cleared_In in Hin as [_ Hne]. congruence.
  - simpl. lia.
Qed.

(** C2 fails in the window between the two delays.  A first message is
    shown; 5100 ms later its hiding timeout has fired and its clearing
    timeout, whose identifier the script does not keep, is pending.  A
    second message shown then leaves that timeout in place: two
    dismissal timeouts are pending, and 300 ms later the first one's
    clears the text of the second message. *)
Theorem displayStatusMessage_leaves_clearing_timeout :
  option_map statusMessage_textContent
    (shown_twice 4 (js "first") (js "second") (js "info") 5100)
  = Some (js "second") /\
  option_map (fun s => map timer_callback (pending_dismissals s))
    (shown_twice 4 (js "first") (js "second") (js "info") 5100)
  = Some [ClearStatus; HideStatus] /\
  option_map (fun s => map timer_due (pending_dismissals s))
    (shown_twice 4 (js "first") (js "second") (js "info") 5100)
  = Some [5400%N; 10100%N] /\
  option_map (fun s => (clock s, statusMessage_textContent s,
                        statusMessage_dataType s))
    (shown_twice_then 4 (js "first") (js "second") (js "info") 5100 300)
  = Some (5400%N, [], None).
Proof.
  repeat split; vm_compute; reflexivity.
Qed.

End StatusMessage.

(* ------------------------------------------------------------------ *)
(** ** More on extraction *)

Section ExtractionMore.

Lemma link_here_at_prefix (p rest : jsstring) (c : char) :
  In p recognized_prefixes -> is_id_char c = true ->
  link_here (p ++ c :: rest) <> None.
Proof.
  intros Hp Hc. rewrite link_here_prefix by assumption.
  simpl. rewrite Hc. discriminate.
Qed.

(** Whatever [generateLink] extracts stands in the input: after a
    recognized prefix, as a run of identifier characters that is not empty
    and cannot be extended, at the leftmost place where a recognized prefix
    is followed by an identifier character. *)
Theorem extract_sound (s id : jsstring) :
  extract s = Some id ->
  exists pre p rest,
    s = pre ++ p ++ id ++ rest /\
    In p recognized_prefixes /\
    id <> [] /\ forallb is_id_char id = true /\ ends_run rest /\
    forall pre' p' c rest',
      s = pre' ++ p' ++ c :: rest' ->
      In p' recognized_prefixes -> is_id_char c = true ->
      List.length pre <= List.length pre'.
Proof.
  induction s as [|a s IH]; rewrite extract_unfold.
  - discriminate.
  - destruct (link_here (a :: s)) as [id'|] eqn:E.
    + intros [= ->]. apply link_here_Some in E as (p & rest & Hp & E & H).
      exists [], p, rest. repeat split; try tauto.
      intros. apply Nat.le_0_l.
    + intros H. destruct (IH H) as (pre & p & rest & -> & Hp & Hne & Hid & Hr & Hl).
      exists (a :: pre), p, rest. repeat split; trivial.
      intros [|b pre'] p' c rest' E' Hp' Hc.
      * exfalso. simpl in E'. rewrite E' in E.
        now apply (link_here_at_prefix p' rest' c).
      * simpl in E'. injection E' as _ E'. simpl.
        apply le_n_S. now apply (Hl pre' p' c rest').
Qed.

Lemma extract_sound_witness :
  exists pre p rest,
    js "see http://drive.google.com/open?id=XyZ789_-&x"
    = pre ++ p ++ js "XyZ789_-" ++ rest /\
    In p recognized_prefixes /\
    js "XyZ789_-" <> [] /\ forallb is_id_char (js "XyZ789_-") = true /\
    ends_run rest /\
    forall pre' p' c rest',
      js "see http://drive.google.com/open?id=XyZ789_-&x"
      = pre' ++ p' ++ c :: rest' ->
      In p' recognized_prefixes -> is_id_char c = true ->
      List.length pre <= List.length pre'.
Proof.
  apply (extract_sound (js "see http://drive.google.com/open?id=XyZ789_-&x")
                       (js "XyZ789_-")).
  reflexivity.
Defined.

(** If anywhere in the input a recognized prefix is followed by an
    identifier character, something is extracted. *)
Lemma extract_complete (pre p rest : jsstring) (c : char) :
  In p recognized_prefixes -> is_id_char c = true ->
  exists id, extract (pre ++ p ++ c :: rest) = Some id.
Proof.
  intros Hp Hc. induction pre as [|a pre IH]; rewrite extract_unfold.
  - destruct (link_here ([] ++ p ++ c :: rest)) as [id|] eqn:E; [eauto|].
    now apply link_here_at_prefix in E.
  - destruct (link_here ((a :: pre) ++ p ++ c :: rest)); [eauto | exact IH].
Qed.

Lemma prefix_tail_skip (p rest : jsstring) :
  In p recognized_prefixes ->
  match p with
  | [] => False
  | _ :: p' => extract (p' ++ rest) = extract rest
  end.
Proof.
  intros [<-|[<-|[<-|[<-|[<-|[<-|[]]]]]]];
    cbn [js list_ascii_of_string map app];
    repeat (rewrite extract_skip by (cbn; discriminate)); reflexivity.
Qed.

(** A recognized prefix with no identifier after it is no link: the search
    goes on in what follows it.  A prefix alone gives no match. *)
Theorem extract_prefix_without_id (p rest : jsstring) :
  In p recognized_prefixes -> ends_run rest ->
  extract (p ++ rest) = extract rest /\ extract p = None.
Proof.
  intros Hp Hrest.
  assert (forall r, ends_run r -> extract (p ++ r) = extract r) as H.
  { intros r Hr. rewrite extract_unfold, link_here_prefix by assumption.
    replace (takeWhile is_id_char r) with (@nil char)
      by (destruct r as [|c r]; simpl in *; [|rewrite Hr]; reflexivity).
    pose proof (prefix_tail_skip p r Hp) as Hs.
    destruct p; [contradiction | exact Hs]. }
  split; [now apply H|].
  rewrite <- (app_nil_r p). now rewrite (H [] I).
Qed.

Lemma extract_prefix_without_id_witness :
  extract (js "https://drive.google.com/file/d/" ++ js "/view") = extract (js "/view")
  /\ extract (js "https://drive.google.com/file/d/") = None.
Proof.
  apply (extract_prefix_without_id (js "https://drive.google.com/file/d/")
                                   (js "/view")).
  - left. reflexivity.
  - reflexivity.
Defined.

(** The scheme makes no difference: from a text that starts with
    [http://] the same is extracted as from that text with [https://]. *)
Theorem extract_http_https (t : jsstring) :
  extract (js "http://" ++ t) = extract (js "https://" ++ t).
Proof.
  rewrite (extract_unfold (js "http://" ++ t)),
          (extract_unfold (js "https://" ++ t)).
  replace (link_here (js "https://" ++ t)) with (link_here (js "http://" ++ t))
    by reflexivity.
  destruct (link_here (js "http://" ++ t)); [reflexivity|].
  cbn [js list_ascii_of_string map app].
  repeat (rewrite extract_skip by (cbn; discriminate)). reflexivity.
Qed.




End ExtractionMore.

(* ------------------------------------------------------------------ *)
(** ** More on link generation and copying *)

Section GenerationMore.

Lemma generateLink_begin_output (s : page) :
  outputLinkInput_value (exec generateLink_begin s) = [].
Proof.
  destruct (falsy (trim (driveLinkInput_value s))) eqn:E.
  - now destruct (generateLink_begin_empty s E) as (_ & H & _).
  - now destruct (generateLink_begin_nonempty s E) as (_ & H & _).
Qed.



Lemma pop_earliest_min (q r : list timer) (t : timer) :
  pop_earliest q = Some (t, r) ->
  forall x, In x q -> (timer_due t <= timer_due x)%N.
Proof.
  revert r t. induction q as [|a q IH]; simpl; intros r t H; [discriminate|].
  destruct (pop_earliest q) as [[m r']|] eqn:E.
  - specialize (IH _ _ eq_refl).
    destruct (N.leb_spec (timer_due a) (timer_due m)) as [Hle|Hgt];
      injection H as <- <-; intros x [<-|Hx].
    + apply N.le_refl.
    + apply IH in Hx. lia.
    + lia.
    + now apply IH.
  - apply pop_earliest_None in E. subst q. injection H as <- <-.
    intros x [<-|[]]. apply N.le_refl.
Qed.

Lemma run_callback_clock (cb : callback) (s : page) :
  clock (exec (run_callback cb) s) = clock s.
Proof.
  destruct cb; try reflexivity.
  unfold run_callback, generateLink_resume, exec. cbv [bind log modify].
  destruct (extract input); reflexivity.
Qed.

(** The artificial delay is exact: when the loop is left to run, a call of
    [generateLink] on an input that is not empty ends 1200 ms after the
    click, whatever other timeouts are pending. *)
Theorem generateLink_takes_1200 (fuel : nat) (s : page) :
  timers_fresh s = true ->
  falsy (trim (driveLinkInput_value s)) = false ->
  3 * (List.length (timers s) + 1) <= fuel ->
  exists s', generateLink fuel s = Some s' /\ clock s' = (clock s + 1200)%N.
Proof.
  intros Hf He Hfuel.
  pose proof (generateLink_begin_awaiting s Hf He) as Haw.
  destruct (generateLink_begin_nonempty s He) as (Hr & _ & Ht & _).
  assert (clock (exec generateLink_begin s) = clock s) as Hc.
  { unfold generateLink_begin, exec. cbv [bind gets modify]. now rewrite He. }
  unfold generateLink, exec in *.
  destruct (generateLink_begin s) as [r s0]. simpl in *. subst r.
  set (D := (clock s + 1200)%N).
  set (P := fun x : page =>
              (clock x <= D)%N /\
              forall t, In t (timers x) -> timer_id t = nextTimerId s ->
                        timer_due t = D).
  destruct (await_finishes (nextTimerId s) (trim (driveLinkInput_value s))
              P (fun x => clock x = D)) with (fuel := fuel) (s := s0)
    as (s1 & E & HQ).
  - intros x t q [Hx1 Hx2] Hawx Hpop Hne.
    pose proof (pop_earliest_In _ _ _ Hpop) as HIn.
    pose proof (pop_earliest_min _ _ _ Hpop) as Hmin.
    destruct Hawx as ((t0 & Hin0 & Hid0) & _ & Hlt & _).
    split.
    + rewrite run_callback_clock. cbn.
      specialize (Hmin _ Hin0). rewrite (Hx2 _ Hin0 Hid0) in Hmin. lia.
    + intros y Hy Hyid. apply run_callback_In in Hy.
      change (timers (dequeued x t q)) with q in Hy.
      change (nextTimerId (dequeued x t q)) with (nextTimerId x) in Hy.
      destruct Hy as [[[Hy _]|[Hy _]]|[Hy _]];
        try (apply Hx2; [apply HIn; now right | assumption]).
      lia.
  - intros x t q [Hx1 Hx2] _ Hpop Hid.
    pose proof (pop_earliest_In _ _ _ Hpop) as HIn.
    cbn. rewrite (Hx2 t); [lia | apply HIn; now left | assumption].
  - rewrite Ht. pose proof (queue_weight_length (timers s)).
    rewrite queue_weight_app. unfold queue_weight at 2. simpl. lia.
  - exact Haw.
  - split; [rewrite Hc; unfold D; lia|].
    rewrite Ht. intros t Hin Hid.
    apply in_app_iff in Hin as [Hin|[<-|[]]]; [|reflexivity].
    apply timers_fresh_spec in Hf as [Hf _]. apply Hf in Hin. lia.
  - exists (snd (generateLink_resume (trim (driveLinkInput_value s)) s1)).
    split; [exact E|].
    change (clock (exec (run_callback (ResumeGenerate
                                         (trim (driveLinkInput_value s)))) s1) = D).
    now rewrite run_callback_clock.
Qed.

Lemma generateLink_takes_1200_witness :
  exists s',
    generateLink 3 (type_input (js "not a link") (loaded_page None)) = Some s' /\
    clock s' = 1200%N.
Proof.
  apply (generateLink_takes_1200 3
           (type_input (js "not a link") (loaded_page None)));
    [reflexivity | reflexivity | simpl; repeat constructor].
Defined.

Lemma directLink_truthy (id : jsstring) : falsy (directLink id) = false.
Proof. reflexivity. Qed.

(** A call of [generateLink] on an input from which [id] is extracted. *)
Lemma generateLink_match (fuel : nat) (s : page) (id : jsstring) :
  timers_fresh s = true ->
  extract (driveLinkInput_value s) = Some id ->
  3 * (List.length (timers s) + 1) <= fuel ->
  exists s1,
    generateLink fuel s
    = Some (exec (generateLink_resume (trim (driveLinkInput_value s))) s1) /\
    extract (trim (driveLinkInput_value s)) = Some id.
Proof.
  intros Hf Hex Hfuel.
  pose proof (trim_extract_nonempty _ id Hex) as Hne.
  destruct (generateLink_total fuel s Hf Hne Hfuel) as (s1 & E).
  exists s1. split; [exact E|]. now rewrite extract_trim.
Qed.

(** When the match succeeds with [id] in group 1, the call ends with the
    success message on display, the output field focused and selected just
    before the loading class is removed, and the copy button enabled. *)
Theorem generateLink_success (fuel : nat) (s : page) (id : jsstring) :
  str_match drive_regex (trim (driveLinkInput_value s)) = Some (Some id) ->
  timers_fresh s = true ->
  3 * (List.length (timers s) + 1) <= fuel ->
  exists s',
    generateLink fuel s = Some s' /\
    statusMessage_textContent s'
    = js "Direct download link generated successfully!" /\
    statusMessage_dataType s' = Some (js "success") /\
    statusMessage_show s' = true /\
    copy_enabled s' = true /\
    exists before,
      calls s' = CallStopButtonLoading :: CallSelect :: CallFocus
                 :: CallMatch (trim (driveLinkInput_value s)) :: before.
Proof.
  intros Hm Hf Hfuel.
  assert (extract (driveLinkInput_value s) = Some id) as Hex.
  { rewrite str_match_drive, extract_trim in Hm.
    destruct (extract (driveLinkInput_value s)); simpl in Hm; congruence. }
  destruct (generateLink_match fuel s id Hf Hex Hfuel) as (s1 & E & Hex').
  destruct (generateLink_resume_match _ id s1 Hex') as (Ho & Ht & Hty & Hc).
  pose proof (generateLink_resume_synced (trim (driveLinkInput_value s)) s1)
    as [Hen _].
  eexists. split; [exact E|]. repeat split; trivial.
  - unfold generateLink_resume, exec. cbv [bind log modify].
    now rewrite Hex'.
  - now rewrite Hen, Ho.
  - eexists. exact Hc.
Qed.

Lemma generateLink_success_witness :
  exists s',
    generateLink 3
      (type_input (js " https://docs.google.com/document/d/abc/edit ")
                  (loaded_page None)) = Some s' /\
    statusMessage_textContent s'
    = js "Direct download link generated successfully!" /\
    statusMessage_dataType s' = Some (js "success") /\
    statusMessage_show s' = true /\
    copy_enabled s' = true /\
    exists before,
      calls s' = CallStopButtonLoading :: CallSelect :: CallFocus
                 :: CallMatch (js "https://docs.google.com/document/d/abc/edit")
                 :: before.
Proof.
  apply (generateLink_success 3
           (type_input (js " https://docs.google.com/document/d/abc/edit ")
                       (loaded_page None)) (js "abc"));
    [reflexivity | reflexivity | simpl; repeat constructor].
Defined.

(** If anywhere in the input a recognized prefix is followed by an
    identifier character, the call ends with a generated link in the output
    field and the success message, never with an error. *)
Theorem generateLink_finds_link
        (fuel : nat) (s : page) (pre p rest : jsstring) (c : char) :
  driveLinkInput_value s = pre ++ p ++ c :: rest ->
  In p recognized_prefixes -> is_id_char c = true ->
  timers_fresh s = true ->
  3 * (List.length (timers s) + 1) <= fuel ->
  exists s' id,
    generateLink fuel s = Some s' /\
    outputLinkInput_value s' = directLink id /\
    statusMessage_dataType s' = Some (js "success").
Proof.
  intros Hin Hp Hc Hf Hfuel.
  destruct (extract_complete pre p rest c Hp Hc) as (id & Hex).
  rewrite <- Hin in Hex.
  destruct (generateLink_match fuel s id Hf Hex Hfuel) as (s1 & E & Hex').
  destruct (generateLink_resume_match _ id s1 Hex') as (Ho & _ & Hty & _).
  eexists. exists id. split; [exact E|]. auto.
Qed.

Lemma generateLink_finds_link_witness :
  exists s' id,
    generateLink 3
      (type_input (js "x https://drive.google.com/file/d/Q") (loaded_page None))
    = Some s' /\
    outputLinkInput_value s' = directLink id /\
    statusMessage_dataType s' = Some (js "success").
Proof.
  apply (generateLink_finds_link 3
           (type_input (js "x https://drive.google.com/file/d/Q")
                       (loaded_page None))
           (js "x ") (js "https://drive.google.com/file/d/") [] 81%N);
    [reflexivity | left; reflexivity | reflexivity | reflexivity
     | simpl; repeat constructor].
Defined.

(** [copyToClipboard] on an output field that holds a value, when the copy
    command does not raise: the field is selected, the command run on its
    value, "Link copied to clipboard!" shown as a success, the selection
    removed, and the value left as it was. *)
Theorem copyToClipboard_copies (s : page) :
  outputLinkInput_value s <> [] ->
  statusMessage_textContent (exec (copyToClipboard false) s)
  = js "Link copied to clipboard!" /\
  statusMessage_dataType (exec (copyToClipboard false) s) = Some (js "success") /\
  calls (exec (copyToClipboard false) s)
  = CallRemoveAllRanges :: CallExecCopy (outputLinkInput_value s)
    :: CallSelect :: calls s /\
  outputLinkInput_value (exec (copyToClipboard false) s)
  = outputLinkInput_value s.
Proof.
  intros H. unfold copyToClipboard, exec. cbv [bind gets].
  destruct (outputLinkInput_value s) eqn:E; [contradiction|].
  cbn. rewrite E. repeat split; reflexivity.
Qed.

Lemma copyToClipboard_copies_witness :
  calls (exec (copyToClipboard false)
              (set_outputLinkInput_value (directLink (js "abc")) (loaded_page None)))
  = [CallRemoveAllRanges; CallExecCopy (directLink (js "abc")); CallSelect].
Proof.
  apply (copyToClipboard_copies
           (set_outputLinkInput_value (directLink (js "abc")) (loaded_page None))).
  discriminate.
Defined.

(** When the copy command raises, the failure is logged to the console
    and "Failed to copy link. Please copy manually." shown as an error; the
    selection is removed all the same, and the value left as it was. *)
Theorem copyToClipboard_fails (s : page) :
  outputLinkInput_value s <> [] ->
  statusMessage_textContent (exec (copyToClipboard true) s)
  = js "Failed to copy link. Please copy manually." /\
  statusMessage_dataType (exec (copyToClipboard true) s) = Some (js "error") /\
  calls (exec (copyToClipboard true) s)
  = CallRemoveAllRanges :: CallConsoleError
    :: CallExecCopy (outputLinkInput_value s) :: CallSelect :: calls s /\
  outputLinkInput_value (exec (copyToClipboard true) s)
  = outputLinkInput_value s.
Proof.
  intros H. unfold copyToClipboard, exec. cbv [bind gets].
  destruct (outputLinkInput_value s) eqn:E; [contradiction|].
  cbn. rewrite E. repeat split; reflexivity.
Qed.

Lemma copyToClipboard_fails_witness :
  statusMessage_dataType
    (exec (copyToClipboard true)
          (set_outputLinkInput_value (directLink (js "abc")) (loaded_page None)))
  = Some (js "error").
Proof.
  apply (copyToClipboard_fails
           (set_outputLinkInput_value (directLink (js "abc")) (loaded_page None))).
  discriminate.
Defined.

(** Generating and then copying: after a call of [generateLink] that
    extracts [id], [copyToClipboard] runs the copy command on exactly
    [https://drive.google.com/uc?export=download&id=] followed by [id]. *)
Theorem generate_then_copy (fuel : nat) (s : page) (id : jsstring) :
  str_match drive_regex (trim (driveLinkInput_value s)) = Some (Some id) ->
  timers_fresh s = true ->
  3 * (List.length (timers s) + 1) <= fuel ->
  exists s',
    generateLink fuel s = Some s' /\
    calls (exec (copyToClipboard false) s')
    = CallRemoveAllRanges
      :: CallExecCopy (js "https://drive.google.com/uc?export=download&id=" ++ id)
      :: CallSelect :: calls s' /\
    statusMessage_textContent (exec (copyToClipboard false) s')
    = js "Link copied to clipboard!".
Proof.
  intros Hm Hf Hfuel.
  assert (extract (driveLinkInput_value s) = Some id) as Hex.
  { rewrite str_match_drive, extract_trim in Hm.
    destruct (extract (driveLinkInput_value s)); simpl in Hm; congruence. }
  destruct (generateLink_match fuel s id Hf Hex Hfuel) as (s1 & E & Hex').
  destruct (generateLink_resume_match _ id s1 Hex') as (Ho & _).
  eexists. split; [exact E|].
  set (s' := exec (generateLink_resume (trim (driveLinkInput_value s))) s1) in *.
  assert (outputLinkInput_value s' <> []) as Hne by (rewrite Ho; discriminate).
  destruct (copyToClipboard_copies s' Hne) as (Ht & _ & Hc & _).
  rewrite Hc, Ho. auto.
Qed.

Lemma generate_then_copy_witness :
  exists s',
    generateLink 3
      (type_input (js "https://drive.google.com/open?id=XyZ789_-")
                  (loaded_page None)) = Some s' /\
    calls (exec (copyToClipboard false) s')
    = CallRemoveAllRanges
      :: CallExecCopy (js "https://drive.google.com/uc?export=download&id=XyZ789_-")
      :: CallSelect :: calls s' /\
    statusMessage_textContent (exec (copyToClipboard false) s')
    = js "Link copied to clipboard!".
Proof.
  apply (generate_then_copy 3
           (type_input (js "https://drive.google.com/open?id=XyZ789_-")
                       (loaded_page None)) (js "XyZ789_-"));
    [reflexivity | reflexivity | simpl; repeat constructor].
Defined.

(** Once the button is clicked the previous link is gone: during the
    delay, and after a click on an empty input, [copyToClipboard] finds
    nothing to copy and runs no copy command. *)
Theorem copy_after_click (throws : bool) (s : page) :
  statusMessage_textContent
    (exec (copyToClipboard throws) (exec generateLink_begin s))
  = js "No link to copy!" /\
  calls (exec (copyToClipboard throws) (exec generateLink_begin s))
  = calls (exec generateLink_begin s).
Proof.
  pose proof (generateLink_begin_output s) as Ho.
  generalize dependent (exec generateLink_begin s). intros s1 Ho.
  unfold copyToClipboard, exec. cbv [bind gets].
  rewrite Ho. split; reflexivity.
Qed.

End GenerationMore.

(* ------------------------------------------------------------------ *)
(** ** More invariants of the page *)

Section InvariantsMore.

Lemma pop_earliest_NoDup (q r : list timer) (t : timer) :
  pop_earliest q = Some (t, r) ->
  NoDup (map timer_id q) ->
  NoDup (map timer_id r) /\ ~ In (timer_id t) (map timer_id r).
Proof.
  revert r t. induction q as [|a q IH]; simpl; intros r t H Hnd; [discriminate|].
  inversion Hnd as [|x l Hnot Hnd']; subst.
  destruct (pop_earliest q) as [[m r']|] eqn:E.
  - destruct (IH _ _ eq_refl Hnd') as [IH1 IH2].
    pose proof (pop_earliest_In _ _ _ E) as HIn.
    destruct (N.leb _ _); injection H as <- <-.
    + auto.
    + assert (forall i, In i (map timer_id r') -> In i (map timer_id q)) as Hsub.
      { intros i Hi. apply in_map_iff in Hi as (y & <- & Hy).
        apply in_map. apply HIn. now right. }
      split.
      * simpl. constructor; [|assumption]. intros Hi. apply Hnot. auto.
      * simpl. intros [Hi|Hi]; [|contradiction].
        apply Hnot. rewrite Hi. apply in_map. apply HIn. now left.
  - apply pop_earliest_None in E. subst q. injection H as <- <-.
    split; [constructor | intros []].
Qed.

Lemma NoDup_map_filter (f : timer -> bool) (q : list timer) :
  NoDup (map timer_id q) -> NoDup (map timer_id (filter f q)).
Proof.
  induction q as [|a q IH]; simpl; intros H; [constructor|].
  inversion H as [|x l Hnot Hnd]; subst.
  destruct (f a); simpl; [|auto].
  constructor; [|auto]. intros Hi. apply Hnot.
  apply in_map_iff in Hi as (y & Hy & Hin). apply filter_In in Hin as [Hin _].
  rewrite <- Hy. now apply in_map.
Qed.

Lemma cleared_NoDup (s : page) :
  NoDup (map timer_id (timers s)) -> NoDup (map timer_id (cleared s)).
Proof.
  unfold cleared. destruct (statusMessageTimeoutId s); [|trivial].
  apply NoDup_map_filter.
Qed.

Lemma NoDup_ids_snoc (q : list timer) (t : timer) :
  NoDup (map timer_id q) ->
  (forall x, In x q -> timer_id x <> timer_id t) ->
  NoDup (map timer_id (q ++ [t])).
Proof.
  intros Hnd Hnew. rewrite map_app. simpl.
  apply NoDup_app; [assumption | repeat constructor; intros [] |].
  intros i Hi [<-|[]]. apply in_map_iff in Hi as (x & Hx & Hin).
  now apply (Hnew x).
Qed.

(** A message is shown: the recorded timeout is cancelled, and the new
    hiding timeout recorded. *)
Lemma hide_tracked_show (s s' : page) (d : N) :
  timers_fresh s = true -> hide_tracked s ->
  timers s' = cleared s ++ [Timer (nextTimerId s) d HideStatus] ->
  statusMessageTimeoutId s' = Some (nextTimerId s) ->
  hide_tracked s'.
Proof.
  intros Hf [Hnd Htr] Ht Hs. apply timers_fresh_spec in Hf as [Hf _].
  unfold hide_tracked. rewrite Ht, Hs. split.
  - apply NoDup_ids_snoc; [now apply cleared_NoDup|].
    intros x Hx. apply cleared_incl, Hf in Hx. simpl. lia.
  - intros t Hin Hcb. apply in_app_iff in Hin as [Hin|[<-|[]]]; [|reflexivity].
    exfalso. apply cleared_In in Hin as [Hin Hne]. apply Hne. now apply Htr.
Qed.

(** A timeout that hides nothing is set. *)
Lemma hide_tracked_other (s s' : page) (d : N) (cb : callback) :
  timers_fresh s = true -> hide_tracked s ->
  is_hide cb = false ->
  timers s' = timers s ++ [Timer (nextTimerId s) d cb] ->
  statusMessageTimeoutId s' = statusMessageTimeoutId s ->
  hide_tracked s'.
Proof.
  intros Hf [Hnd Htr] Hcb Ht Hs. apply timers_fresh_spec in Hf as [Hf _].
  unfold hide_tracked. rewrite Ht, Hs. split.
  - apply NoDup_ids_snoc; [assumption|].
    intros x Hx. apply Hf in Hx. simpl. lia.
  - intros t Hin Hc. apply in_app_iff in Hin as [Hin|[<-|[]]]; [now apply Htr|].
    simpl in Hc. subst cb. discriminate.
Qed.

Lemma hide_tracked_frame (s s' : page) :
  timers s' = timers s ->
  statusMessageTimeoutId s' = statusMessageTimeoutId s ->
  hide_tracked s -> hide_tracked s'.
Proof. unfold hide_tracked. now intros -> ->. Qed.

Lemma timers_fresh_frame (s s' : page) :
  timers s' = timers s -> nextTimerId s' = nextTimerId s ->
  statusMessageTimeoutId s' = statusMessageTimeoutId s ->
  timers_fresh s' = timers_fresh s.
Proof. unfold timers_fresh. now intros -> -> ->. Qed.

Lemma displayStatusMessage_tracked (m ty : jsstring) (s : page) :
  timers_fresh s = true -> hide_tracked s ->
  hide_tracked (exec (displayStatusMessage m ty) s).
Proof.
  intros Hf H. now apply (hide_tracked_show s _ (clock s + 5000) Hf H).
Qed.

Lemma generateLink_begin_tracked (s : page) :
  timers_fresh s = true -> hide_tracked s ->
  hide_tracked (exec generateLink_begin s).
Proof.
  intros Hf H. destruct (falsy (trim (driveLinkInput_value s))) eqn:E.
  - apply (hide_tracked_show s _ (clock s + 5000) Hf H);
      unfold generateLink_begin, exec; cbv [bind gets modify]; now rewrite E.
  - destruct (generateLink_begin_nonempty s E) as (_ & _ & Ht & _ & Hs & _).
    now apply (hide_tracked_other s _ (clock s + 1200)
                 (ResumeGenerate (trim (driveLinkInput_value s))) Hf H).
Qed.

Lemma copyToClipboard_tracked (throws : bool) (s : page) :
  timers_fresh s = true -> hide_tracked s ->
  hide_tracked (exec (copyToClipboard throws) s).
Proof.
  intros Hf H. apply (hide_tracked_show s _ (clock s + 5000) Hf H);
    unfold copyToClipboard, exec; cbv [bind gets];
    destruct (falsy (outputLinkInput_value s)); try destruct throws;
    reflexivity.
Qed.

Lemma fire_next_tracked (s s' : page) (id : N) :
  timers_fresh s = true -> hide_tracked s ->
  fire_next s = Some (id, s') -> hide_tracked s'.
Proof.
  intros Hf [Hnd Htr]. unfold fire_next.
  destruct (pop_earliest (timers s)) as [[t q]|] eqn:Hpop; [|discriminate].
  intros [= _ <-]. fold (dequeued s t q).
  pose proof (pop_earliest_In _ _ _ Hpop) as HIn.
  destruct (pop_earliest_NoDup _ _ _ Hpop Hnd) as [Hndq Hnot].
  assert (timers_fresh (dequeued s t q) = true) as Hfq.
  { apply (timers_fresh_mono s); trivial.
    - intros x Hx. left. apply HIn. now right.
    - apply N.le_refl.
    - now left. }
  assert (hide_tracked (dequeued s t q)) as Hq.
  { split; [exact Hndq|]. intros x Hx Hcb. apply Htr; [|assumption].
    apply HIn. now right. }
  destruct (timer_callback t) eqn:Hcb.
  - apply (hide_tracked_other (dequeued s t q) _ (clock (dequeued s t q) + 400)
             ClearStatus Hfq Hq); reflexivity.
  - exact Hq.
  - destruct (generateLink_resume_ids input (dequeued s t q)) as [_ Hs].
    apply (hide_tracked_show (dequeued s t q) _ (clock (dequeued s t q) + 5000)
             Hfq Hq); [apply generateLink_resume_timers | exact Hs].
Qed.

Lemma reachable_tracked (s : page) : reachable s -> hide_tracked s.
Proof.
  induction 1 as [saved|s s' Hr IH Hstep].
  - apply hide_tracked_frame with (blank_page saved).
    + destruct saved as [v|]; [|reflexivity].
      unfold loaded_page, on_DOMContentLoaded, applySavedTheme, exec.
      cbv [bind gets]. cbn. destruct (str_eqb v _); reflexivity.
    + destruct saved as [v|]; [|reflexivity].
      unfold loaded_page, on_DOMContentLoaded, applySavedTheme, exec.
      cbv [bind gets]. cbn. destruct (str_eqb v _); reflexivity.
    + split; [constructor | intros t []].
  - pose proof (reachable_fresh s Hr) as Hf. destruct Hstep.
    + exact IH.
    + now apply generateLink_begin_tracked.
    + now apply copyToClipboard_tracked.
    + destruct checked; exact IH.
    + eapply fire_next_tracked; eassumption.
    + exact IH.
Qed.

Lemma tracked_at_most_one (q : list timer) (i : N) :
  NoDup (map timer_id q) ->
  (forall t, In t q -> timer_callback t = HideStatus -> timer_id t = i) ->
  List.length (filter (fun t => is_hide (timer_callback t)) q) <= 1.
Proof.
  induction q as [|a q IH]; simpl; intros Hnd Hid; [lia|].
  inversion Hnd as [|x l Hnot Hnd']; subst.
  destruct (timer_callback a) eqn:Ha; simpl; try (apply IH; auto).
  assert (filter (fun t => is_hide (timer_callback t)) q = []) as ->; [|simpl; lia].
  destruct (filter _ q) as [|b r] eqn:E; [reflexivity|]. exfalso.
  assert (In b (filter (fun t => is_hide (timer_callback t)) q)) as Hb
      by (rewrite E; now left).
  apply filter_In in Hb as [Hb Hh].
  assert (timer_callback b = HideStatus) as Hcb
      by (destruct (timer_callback b); [reflexivity | discriminate | discriminate]).
  apply Hnot. rewrite (Hid a (or_introl eq_refl) Ha).
  rewrite <- (Hid b (or_intror Hb) Hcb). now apply in_map.
Qed.

(** In every state of the page at most one hiding timeout is pending, and
    it is the one [statusMessageTimeoutId] names: showing a message never
    leaves the hiding timeout of an earlier message behind. *)
Theorem one_hiding_timeout (s : page) :
  reachable s ->
  List.length (pending_hides s) <= 1 /\
  forall t, In t (pending_hides s) ->
            statusMessageTimeoutId s = Some (timer_id t).
Proof.
  intros Hr. destruct (reachable_tracked s Hr) as [Hnd Htr].
  assert (forall t, In t (timers s) -> timer_callback t = HideStatus ->
                    statusMessageTimeoutId s = Some (timer_id t)) as Htr' by exact Htr.
  split.
  - destruct (statusMessageTimeoutId s) as [i|] eqn:Hs.
    + apply tracked_at_most_one with i; [assumption|].
      intros t Hin Hcb. specialize (Htr t Hin Hcb). congruence.
    + apply tracked_at_most_one with 0%N; [assumption|].
      intros t Hin Hcb. specialize (Htr t Hin Hcb). congruence.
  - intros t Hin. apply filter_In in Hin as [Hin Hh]. apply Htr'; [assumption|].
    destruct (timer_callback t); [reflexivity | discriminate | discriminate].
Qed.

Lemma one_hiding_timeout_witness :
  List.length
    (pending_hides
       (exec (copyToClipboard false)
             (exec (copyToClipboard false) (loaded_page None)))) <= 1.
Proof.
  apply (one_hiding_timeout
           (exec (copyToClipboard false)
                 (exec (copyToClipboard false) (loaded_page None)))).
  eapply reachable_step; [eapply reachable_step; [apply reachable_load|]|];
    apply step_copy.
Defined.

End InvariantsMore.

(* ------------------------------------------------------------------ *)
(** ** Theme and status area: invariants *)

Section ThemeAndStatus.

Lemma theme_consistent_frame (s s' : page) :
  body_darkTheme s' = body_darkTheme s ->
  themeToggle_checked s' = themeToggle_checked s ->
  localStorage_theme s' = localStorage_theme s ->
  theme_consistent s -> theme_consistent s'.
Proof. unfold theme_consistent. now intros -> -> ->. Qed.

Lemma applySavedTheme_consistent (s : page) :
  theme_consistent (exec applySavedTheme s).
Proof.
  unfold theme_consistent, applySavedTheme, exec. cbv [bind gets].
  destruct (localStorage_theme s) as [v|] eqn:E.
  - destruct (str_eqb v (js "dark")) eqn:Ev; cbn; rewrite E.
    + apply str_eqb_eq in Ev. subst v. tauto.
    + split; [reflexivity|]. split; [discriminate|].
      intros [= ->]. discriminate.
  - cbn. rewrite E. split; [reflexivity|]. split; discriminate.
Qed.

Lemma flip_theme_consistent (checked : bool) (s : page) :
  theme_consistent (flip_theme checked s).
Proof.
  destruct checked; split; try reflexivity; cbn; split;
    try reflexivity; discriminate.
Qed.

Lemma run_callback_theme (cb : callback) (s : page) :
  theme_consistent s -> theme_consistent (exec (run_callback cb) s).
Proof.
  apply theme_consistent_frame; destruct cb; try reflexivity;
    unfold run_callback, generateLink_resume, exec; cbv [bind log modify];
    destruct (extract input); reflexivity.
Qed.

Lemma step_theme_consistent (s s' : page) :
  step s s' -> theme_consistent s -> theme_consistent s'.
Proof.
  intros Hstep H. destruct Hstep.
  - exact H.
  - revert H. apply theme_consistent_frame;
      unfold generateLink_begin, exec; cbv [bind gets modify];
      destruct (falsy (trim (driveLinkInput_value s))); reflexivity.
  - revert H. apply theme_consistent_frame;
      unfold copyToClipboard, exec; cbv [bind gets];
      destruct (falsy (outputLinkInput_value s)); try destruct throws;
      reflexivity.
  - apply flip_theme_consistent.
  - unfold fire_next in H0.
    destruct (pop_earliest (timers s)) as [[t q]|]; [|discriminate].
    injection H0 as _ <-. now apply run_callback_theme.
  - exact H.
Qed.

(** In every state of the page the dark class, the switch and local
    storage agree: the class is set exactly when the switch is checked,
    and exactly when storage holds ["dark"].  A reload therefore shows the
    theme the page had. *)
Theorem theme_stays_consistent (s : page) :
  reachable s ->
  theme_consistent s /\
  body_darkTheme (loaded_page (localStorage_theme s)) = body_darkTheme s.
Proof.
  intros Hr.
  assert (theme_consistent s) as H.
  { induction Hr as [saved|s s' _ IH Hstep].
    - apply applySavedTheme_consistent.
    - now apply step_theme_consistent with s. }
  split; [exact H|].
  destruct H as [_ H].
  pose proof (applySavedTheme_consistent
                (exec toggleCopyButtonState (blank_page (localStorage_theme s))))
    as [_ H'].
  change (exec applySavedTheme
               (exec toggleCopyButtonState (blank_page (localStorage_theme s))))
    with (loaded_page (localStorage_theme s)) in H'.
  assert (localStorage_theme (loaded_page (localStorage_theme s))
          = localStorage_theme s) as Hs.
  { unfold loaded_page, on_DOMContentLoaded, applySavedTheme, exec.
    cbv [bind gets]. cbn. destruct (localStorage_theme s) as [v|]; [|reflexivity].
    destruct (str_eqb v _); reflexivity. }
  rewrite Hs in H'.
  destruct (body_darkTheme s), (body_darkTheme (loaded_page (localStorage_theme s)));
    trivial.
  - apply H'. now apply H.
  - symmetry. apply H. now apply H'.
Qed.

Lemma theme_stays_consistent_witness :
  theme_consistent (flip_theme true (loaded_page None)) /\
  body_darkTheme
    (loaded_page (localStorage_theme (flip_theme true (loaded_page None))))
  = body_darkTheme (flip_theme true (loaded_page None)).
Proof.
  apply (theme_stays_consistent (flip_theme true (loaded_page None))).
  eapply reachable_step; [apply reachable_load | apply step_theme].
Defined.

Lemma status_known_frame (s s' : page) :
  statusMessage_textContent s' = statusMessage_textContent s ->
  statusMessage_dataType s' = statusMessage_dataType s ->
  status_known s -> status_known s'.
Proof. unfold status_known. now intros -> ->. Qed.

Lemma status_known_blank (s : page) :
  statusMessage_textContent s = [] -> statusMessage_dataType s = None ->
  status_known s.
Proof. left. auto. Qed.

Lemma status_known_message (s : page) (m ty : jsstring) :
  In (m, ty) script_messages ->
  statusMessage_textContent s = m -> statusMessage_dataType s = Some ty ->
  status_known s.
Proof. right. eauto. Qed.

Lemma generateLink_resume_known (input : jsstring) (s : page) :
  status_known (exec (generateLink_resume input) s).
Proof.
  destruct (extract input) as [id|] eqn:E.
  - destruct (generateLink_resume_match input id s E) as (_ & Ht & Hty & _).
    eapply status_known_message; [|exact Ht | exact Hty]. simpl. auto.
  - destruct (generateLink_resume_no_match input s E) as (_ & Ht & Hty & _).
    eapply status_known_message; [|exact Ht | exact Hty]. simpl. auto.
Qed.

Lemma generateLink_begin_known (s : page) :
  status_known (exec generateLink_begin s).
Proof.
  destruct (falsy (trim (driveLinkInput_value s))) eqn:E.
  - destruct (generateLink_begin_empty s E) as (_ & _ & Ht & Hty & _).
    eapply status_known_message; [|exact Ht | exact Hty]. simpl. auto.
  - apply status_known_blank;
      unfold generateLink_begin, exec; cbv [bind gets modify]; now rewrite E.
Qed.

Lemma copyToClipboard_known (throws : bool) (s : page) :
  status_known (exec (copyToClipboard throws) s).
Proof.
  unfold copyToClipboard, exec. cbv [bind gets].
  destruct (falsy (outputLinkInput_value s)); [|destruct throws];
    (eapply status_known_message; [|reflexivity | reflexivity]); simpl; auto 7.
Qed.

Lemma step_known (s s' : page) :
  step s s' -> status_known s -> status_known s'.
Proof.
  intros Hstep H. destruct Hstep.
  - exact H.
  - apply generateLink_begin_known.
  - apply copyToClipboard_known.
  - destruct checked; exact H.
  - unfold fire_next in H0.
    destruct (pop_earliest (timers s)) as [[t q]|]; [|discriminate].
    injection H0 as _ <-. destruct (timer_callback t).
    + exact H.
    + now apply status_known_blank.
    + apply generateLink_resume_known.
  - exact H.
Qed.

(** In every state of the page the status area is blank, with no text and
    no type, or holds one of the six messages of the script together with
    the type the script gives that message: text and type never come
    apart. *)
Theorem status_stays_known (s : page) : reachable s -> status_known s.
Proof.
  induction 1 as [saved|s s' _ IH Hstep].
  - apply status_known_blank;
      (destruct saved as [v|]; [|reflexivity]);
      unfold loaded_page, on_DOMContentLoaded, applySavedTheme, exec;
      cbv [bind gets]; cbn; destruct (str_eqb v _); reflexivity.
  - now apply step_known with s.
Qed.

Lemma status_stays_known_witness :
  status_known (exec (copyToClipboard false) (loaded_page None)).
Proof.
  apply (status_stays_known (exec (copyToClipboard false) (loaded_page None))).
  eapply reachable_step; [apply reachable_load | apply step_copy].
Defined.

Lemma run_until_wait (n : nat) (t : N) (s : page) (tm : timer) (r : list timer) :
  pop_earliest (timers s) = Some (tm, r) -> (t < timer_due tm)%N ->
  run_until (S n) t s = Some (set_clock (N.max (clock s) t) s).
Proof.
  intros Hpop Hlt. simpl. rewrite Hpop.
  destruct (N.leb_spec (timer_due tm) t); [lia | reflexivity].
Qed.

Lemma run_until_fire (n : nat) (t : N) (s : page) (tm : timer) (r : list timer) :
  pop_earliest (timers s) = Some (tm, r) -> (timer_due tm <= t)%N ->
  run_until (S n) t s
  = run_until n t (exec (run_callback (timer_callback tm)) (dequeued s tm r)).
Proof.
  intros Hpop Hle. simpl. unfold fire_next. rewrite Hpop.
  destruct (N.leb_spec (timer_due tm) t); [reflexivity | lia].
Qed.

Lemma run_until_idle (n : nat) (t : N) (s : page) :
  timers s = [] ->
  run_until (S n) t s = Some (set_clock (N.max (clock s) t) s).
Proof. intros E. simpl. now rewrite E. Qed.

(** The life of a message shown while no timeout is pending, when the
    user does nothing: it is on display until 5000 ms have passed; then
    the [show] class is removed, the text still in place; 400 ms later the
    text and the type are removed, the area is hidden, and no timeout is
    left. *)
Theorem displayStatusMessage_lifecycle (m ty : jsstring) (s : page) (t : N) :
  timers s = [] ->
  let shown := exec (displayStatusMessage m ty) s in
  ((t < clock s + 5000)%N ->
   option_map (fun x => (statusMessage_show x, statusMessage_textContent x,
                         statusMessage_dataType x))
     (run_until 3 t shown) = Some (true, m, Some ty)) /\
  ((clock s + 5000 <= t)%N -> (t < clock s + 5400)%N ->
   option_map (fun x => (statusMessage_show x, statusMessage_textContent x,
                         statusMessage_dataType x))
     (run_until 3 t shown) = Some (false, m, Some ty)) /\
  ((clock s + 5400 <= t)%N ->
   option_map (fun x => (statusMessage_show x, statusMessage_textContent x,
                         statusMessage_dataType x, statusMessage_display x,
                         timers x))
     (run_until 3 t shown) = Some (false, [], None, js "none", [])).
Proof.
  intros Ht shown.
  set (T1 := Timer (nextTimerId s) (clock s + 5000) HideStatus).
  assert (pop_earliest (timers shown) = Some (T1, [])) as Hpop1.
  { unfold shown. rewrite displayStatusMessage_timers. unfold cleared.
    rewrite Ht. now destruct (statusMessageTimeoutId s). }
  set (hidden := exec (run_callback HideStatus) (dequeued shown T1 [])).
  set (T2 := Timer (nextTimerId hidden - 1) (clock hidden + 400) ClearStatus).
  assert (clock hidden = clock s + 5000)%N as Hc.
  { unfold hidden. rewrite run_callback_clock.
    change (N.max (clock s) (clock s + 5000) = clock s + 5000)%N. lia. }
  assert (pop_earliest (timers hidden) = Some (T2, [])) as Hpop2.
  { unfold hidden at 1. rewrite run_callback_timers.
    change (timers (dequeued shown T1 [])) with (@nil timer). simpl app.
    unfold T2. simpl pop_earliest.
    replace (nextTimerId hidden - 1)%N with (nextTimerId (dequeued shown T1 []))
      by (unfold hidden; cbn; lia).
    replace (clock hidden) with (clock (dequeued shown T1 []))
      by (unfold hidden; now rewrite run_callback_clock).
    reflexivity. }
  repeat split.
  - intros Hlt. now rewrite (run_until_wait 2 t shown T1 [] Hpop1 Hlt).
  - intros Hle Hlt. rewrite (run_until_fire 2 t shown T1 [] Hpop1 Hle).
    change (exec (run_callback (timer_callback T1)) (dequeued shown T1 []))
      with hidden.
    rewrite (run_until_wait 1 t hidden T2 [] Hpop2)
      by (unfold T2; simpl; lia).
    reflexivity.
  - intros Hle. rewrite (run_until_fire 2 t shown T1 [] Hpop1)
      by (unfold T1; simpl; lia).
    change (exec (run_callback (timer_callback T1)) (dequeued shown T1 []))
      with hidden.
    rewrite (run_until_fire 1 t hidden T2 [] Hpop2)
      by (unfold T2; simpl; lia).
    now rewrite run_until_idle by reflexivity.
Qed.

Lemma displayStatusMessage_lifecycle_witness :
  option_map (fun x => (statusMessage_show x, statusMessage_textContent x,
                        statusMessage_dataType x))
    (run_until 3 5200 (exec (displayStatusMessage (js "hello") (js "info"))
                            (loaded_page None)))
  = Some (false, js "hello", Some (js "info")).
Proof.
  apply (displayStatusMessage_lifecycle (js "hello") (js "info")
           (loaded_page None) 5200);
    [reflexivity | discriminate | reflexivity].
Defined.

End ThemeAndStatus.
